(** * Frame pool and packet loop of the AF_XDP UDP client (client.c)

    A shallow embedding of the frame allocator ([client_alloc_frame],
    [client_free_frame]), of the allocator initialisation at the end of
    [client_init] and of the polling step [client_update], together with the
    properties of the frame pool that hold of that code. *)

From Stdlib Require Import ZArith Lia.
From stdpp Require Import base tactics option list relations strings.

Local Open Scope Z_scope.

(** ** Machine integers and constants *)

(** [#define NUM_FRAMES 4096] *)
Definition NUM_FRAMES : Z := 4096.

(** [#define INVALID_FRAME UINT64_MAX] *)
Definition UINT64_MAX : Z := 2 ^ 64 - 1.
Definition INVALID_FRAME : Z := UINT64_MAX.

Definition INT_MAX : Z := 2 ^ 31 - 1.

(** Arithmetic on [uint32_t] wraps modulo [2^32]. *)
Definition u32 (z : Z) : Z := z mod 2 ^ 32.

(** Conversion of an [int] to [uint64_t]. *)
Definition u64 (z : Z) : Z := z mod 2 ^ 64.

(** ** Outcomes of a call

    A call either returns, or stops the process on a failed [assert], or
    touches an array outside its bounds (which C leaves undefined). *)

Inductive outcome (A : Type) : Type :=
  | Ok (a : A)
  | AssertFail
  | OutOfBounds.

Arguments Ok {A} a.
Arguments AssertFail {A}.
Arguments OutOfBounds {A}.

Definition outcome_bind {A B : Type} (f : A → outcome B) (m : outcome A) : outcome B :=
  match m with
  | Ok a => f a
  | AssertFail => AssertFail
  | OutOfBounds => OutOfBounds
  end.

#[global] Instance outcome_mret : MRet outcome := λ A a, Ok a.
#[global] Instance outcome_mbind : MBind outcome := λ A B f m, outcome_bind f m.

(** [assert( b )] *)
Definition assert (b : bool) : outcome unit :=
  if b then Ok tt else AssertFail.

(** [a[i]] as an rvalue. *)
Definition array_get (a : list Z) (i : Z) : outcome Z :=
  match a !! Z.to_nat i with
  | Some x => Ok x
  | None => OutOfBounds
  end.

(** [a[i] = x] *)
Definition array_set (a : list Z) (i : Z) (x : Z) : outcome (list Z) :=
  if decide (Z.to_nat i < length a)%nat then Ok (<[Z.to_nat i := x]> a) else OutOfBounds.

(** ** Descriptor rings

    The ring type and the consumer-side calls belong to libxdp's [xsk.h],
    which [client.c] only includes. *)

(** Modelled from the spec: the ring type of [xsk.h].  A ring has a fixed
    capacity, a producer index and a consumer index that only grow and
    address the backing array modulo the capacity, and one frame address per
    slot. *)
Record xsk_ring : Type := {
  ring_size : Z;
  ring_producer : Z;
  ring_consumer : Z;
  ring_slots : list Z
}.

(** Number of filled slots, [producer - consumer]. *)
Definition ring_avail (r : xsk_ring) : Z := ring_producer r - ring_consumer r.

(** The descriptors between the consumer and the producer index, oldest
    first. *)
Definition ring_contents (r : xsk_ring) : list Z :=
  (λ j : nat, default 0 (ring_slots r !! Z.to_nat ((ring_consumer r + Z.of_nat j) mod ring_size r)))
    <$> seq 0 (Z.to_nat (ring_avail r)).

(** Modelled from the spec: [xsk_ring_cons__peek] of [xsk.h], the [peek(max)]
    of the consumer side.  It returns how many filled slots are available,
    capped by [max] and by [producer - consumer], and the index of the first
    one, as stored through the [uint32_t *] argument. *)
Definition xsk_ring_cons__peek (r : xsk_ring) (nb : Z) : Z * Z :=
  (Z.min nb (ring_avail r), u32 (ring_consumer r)).

(** Modelled from the spec: [xsk_ring_cons__comp_addr] of [xsk.h], the
    [read(slot_index)] of the consumer side.  It reads the slot that an index
    addresses, modulo the capacity. *)
Definition xsk_ring_cons__comp_addr (r : xsk_ring) (idx : Z) : outcome Z :=
  array_get (ring_slots r) (idx mod ring_size r).

(** Modelled from the spec: [xsk_ring_cons__release] of [xsk.h], the
    [release(k)] of the consumer side.  It advances the consumer index by
    [k]. *)
Definition xsk_ring_cons__release (r : xsk_ring) (nb : Z) : xsk_ring :=
  {| ring_size := ring_size r;
     ring_producer := ring_producer r;
     ring_consumer := ring_consumer r + nb;
     ring_slots := ring_slots r |}.

(** ** The client

    [struct client_t], without the handles of the interface, of the XDP
    program and of the socket, which the allocator and the polling step
    never read. *)

Record client_t : Type := {
  send_queue : xsk_ring;
  complete_queue : xsk_ring;
  receive_queue : xsk_ring;
  fill_queue : xsk_ring;
  frames : list Z;
  num_frames : Z
}.

Definition set_pool (c : client_t) (a : list Z) (n : Z) : client_t :=
  {| send_queue := send_queue c;
     complete_queue := complete_queue c;
     receive_queue := receive_queue c;
     fill_queue := fill_queue c;
     frames := a;
     num_frames := n |}.

Definition set_complete_queue (c : client_t) (r : xsk_ring) : client_t :=
  {| send_queue := send_queue c;
     complete_queue := r;
     receive_queue := receive_queue c;
     fill_queue := fill_queue c;
     frames := frames c;
     num_frames := num_frames c |}.

(** The free set of the pool: the first [num_frames] entries of [frames]. *)
Definition free_set (c : client_t) : list Z :=
  take (Z.to_nat (num_frames c)) (frames c).

(** ** The frame allocator *)

(** [uint64_t client_alloc_frame( struct client_t * client )] *)
Definition client_alloc_frame (c : client_t) : outcome (Z * client_t) :=
  if num_frames c =? 0 then Ok (INVALID_FRAME, c)
  else
    let n := u32 (num_frames c - 1) in
    frame ← array_get (frames c) n;
    a ← array_set (frames c) n INVALID_FRAME;
    Ok (frame, set_pool c a n).

(** [void client_free_frame( struct client_t * client, uint64_t frame )] *)
Definition client_free_frame (c : client_t) (frame : Z) : outcome client_t :=
  _ ← assert (num_frames c <? NUM_FRAMES);
  a ← array_set (frames c) (num_frames c) frame;
  Ok (set_pool c a (u32 (num_frames c + 1))).

(** ** Allocator initialisation, the last block of [client_init]

    [FRAME_SIZE] expands to [XSK_UMEM__DEFAULT_FRAME_SIZE] of libxdp's
    [xsk.h]; it is a parameter here.  The product [i * FRAME_SIZE] is an
    [int] product, converted to [uint64_t] by the assignment. *)

Fixpoint init_frames (FRAME_SIZE : Z) (n : nat) (i : Z) (a : list Z) : outcome (list Z) :=
  match n with
  | O => Ok a
  | S n' =>
      a' ← array_set a i (u64 (i * FRAME_SIZE));
      init_frames FRAME_SIZE n' (i + 1) a'
  end.

Definition client_init_frames (FRAME_SIZE : Z) (c : client_t) : outcome client_t :=
  a ← init_frames FRAME_SIZE (Z.to_nat NUM_FRAMES) 0 (frames c);
  Ok (set_pool c a NUM_FRAMES).

(** ** The polling step *)

Inductive ring_id : Type := Fill | Completion | Receive | Transmit.

(** What one step does to the socket, to the rings and to the pool, in the
    order in which it does it. *)
Inductive event : Type :=
  | EvWakeup
  | EvPeek (r : ring_id) (nb got : Z)
  | EvRead (r : ring_id) (idx addr : Z)
  | EvRelease (r : ring_id) (nb : Z)
  | EvPoolFree (addr : Z).

(** The body of [for ( int i = 0; i < completed; i++ )]. *)
Fixpoint free_completed (n : nat) (c : client_t) (complete_index : Z) (tr : list event)
  : outcome (client_t * list event) :=
  match n with
  | O => Ok (c, tr)
  | S n' =>
      addr ← xsk_ring_cons__comp_addr (complete_queue c) complete_index;
      c' ← client_free_frame c addr;
      free_completed n' c' (u32 (complete_index + 1))
        (tr ++ [EvRead Completion complete_index addr; EvPoolFree addr])
  end.

(** [void client_update( struct client_t * client )].
    [NUM_DESCS] stands for [XSK_RING_CONS__DEFAULT_NUM_DESCS] of [xsk.h]. *)
Definition client_update (NUM_DESCS : Z) (c : client_t) : outcome (client_t * list event) :=
  let tr := [EvWakeup] in
  let '(completed, complete_index) := xsk_ring_cons__peek (complete_queue c) NUM_DESCS in
  let tr := tr ++ [EvPeek Completion NUM_DESCS completed] in
  if 0 <? completed then
    '(c', tr) ← free_completed (Z.to_nat completed) c complete_index tr;
    Ok (set_complete_queue c' (xsk_ring_cons__release (complete_queue c') completed),
        tr ++ [EvRelease Completion completed])
  else Ok (c, tr).

(** ** Sequences of allocator calls *)

Inductive op : Type :=
  | Alloc
  | Free (frame : Z).

(** Runs a sequence of calls and collects what the allocations returned. *)
Fixpoint run (ops : list op) (c : client_t) : outcome (list Z * client_t) :=
  match ops with
  | [] => Ok ([], c)
  | Alloc :: ops' =>
      '(f, c1) ← client_alloc_frame c;
      '(fs, c2) ← run ops' c1;
      Ok (f :: fs, c2)
  | Free f :: ops' =>
      c1 ← client_free_frame c f;
      run ops' c1
  end.

(** Five allocations in a row. *)
Definition alloc5 (c : client_t) : outcome (list Z * client_t) :=
  run [Alloc; Alloc; Alloc; Alloc; Alloc] c.

(** ** Well-formed states *)

(** The array has its declared length and the counter is within it. *)
Definition pool_wf (c : client_t) : Prop :=
  length (frames c) = Z.to_nat NUM_FRAMES ∧ 0 ≤ num_frames c ≤ NUM_FRAMES.

(** No entry of the free set is the sentinel. *)
Definition free_valid (c : client_t) : Prop :=
  Forall (λ f, f ≠ INVALID_FRAME) (free_set c).

(** A ring as libxdp sets it up: a capacity that is a power of two no larger
    than [2^32], a backing array of that length, and at most a capacity's
    worth of descriptors between the two indices. *)
Definition ring_wf (r : xsk_ring) : Prop :=
  0 < ring_size r ∧ (ring_size r | 2 ^ 32) ∧
  length (ring_slots r) = Z.to_nat (ring_size r) ∧
  0 ≤ ring_avail r ≤ ring_size r.

(** ** The pool with its callers

    The state of the client together with what its callers hold: the frames
    that allocations returned and that were not released since ([live]), and
    the number of successful allocations minus the number of releases
    ([outstanding]). *)

Record sys : Type := {
  cl : client_t;
  live : list Z;
  outstanding : Z
}.

Definition start (c : client_t) : sys :=
  {| cl := c; live := []; outstanding := 0 |}.

Fixpoint remove_first (f : Z) (l : list Z) : list Z :=
  match l with
  | [] => []
  | x :: l' => if decide (x = f) then l' else x :: remove_first f l'
  end.

Definition after_alloc (s : sys) (f : Z) (c' : client_t) : sys :=
  if decide (f = INVALID_FRAME)
  then {| cl := c'; live := live s; outstanding := outstanding s |}
  else {| cl := c'; live := f :: live s; outstanding := outstanding s + 1 |}.

Definition after_free (s : sys) (f : Z) (c' : client_t) : sys :=
  {| cl := c'; live := remove_first f (live s); outstanding := outstanding s - 1 |}.

Definition after_update (s : sys) (c' : client_t) : sys :=
  {| cl := c'; live := live s; outstanding := outstanding s |}.

(** One call of the allocator; [G s f] says which releases the callers may
    make in state [s]. *)
Inductive pool_step (G : sys → Z → Prop) : sys → sys → Prop :=
  | step_alloc s f c' :
      client_alloc_frame (cl s) = Ok (f, c') →
      pool_step G s (after_alloc s f c')
  | step_free s f c' :
      G s f →
      client_free_frame (cl s) f = Ok c' →
      pool_step G s (after_free s f c').

(** The frame is not in the free set already. *)
Definition no_double_release (s : sys) (f : Z) : Prop := f ∉ free_set (cl s).

(** The frame was allocated and not released since. *)
Definition release_live (s : sys) (f : Z) : Prop := f ∈ live s.

(** So far there were fewer releases than successful allocations. *)
Definition no_over_release (s : sys) (f : Z) : Prop := 0 < outstanding s.

(** One call of the allocator, with the releases that [G] allows, or one
    polling step. *)
Inductive io_step (G : sys → Z → Prop) (NUM_DESCS : Z) : sys → sys → Prop :=
  | io_pool s s' :
      pool_step G s s' →
      io_step G NUM_DESCS s s'
  | io_update s c' tr :
      client_update NUM_DESCS (cl s) = Ok (c', tr) →
      io_step G NUM_DESCS s (after_update s c').

(** ** Frame identifiers and where they are *)

(** The byte offsets of the [NUM_FRAMES] frames. *)
Definition all_frames (FRAME_SIZE : Z) : list Z :=
  (λ i, i * FRAME_SIZE) <$> seqZ 0 NUM_FRAMES.

#[global] Arguments all_frames : simpl never.

(** The contents of the Fill, Receive, Transmit and Completion rings. *)
Definition ring_frames (c : client_t) : list Z :=
  ring_contents (fill_queue c) ++ ring_contents (receive_queue c) ++
  ring_contents (send_queue c) ++ ring_contents (complete_queue c).

(** Every frame is in exactly one of the free set and the four rings. *)
Definition conserved_in_rings (FRAME_SIZE : Z) (c : client_t) : Prop :=
  free_set c ++ ring_frames c ≡ₚ all_frames FRAME_SIZE.

(** Every frame is in exactly one of the free set, the hands of a caller
    and the four rings. *)
Definition conserved (FRAME_SIZE : Z) (s : sys) : Prop :=
  free_set (cl s) ++ live s ++ ring_frames (cl s) ≡ₚ all_frames FRAME_SIZE.

Definition aligned (FRAME_SIZE : Z) (f : Z) : Prop := (FRAME_SIZE | f).

(** ** The order of a polling step as the design describes it

    Completion ring first, then the Receive ring, then the Transmit ring and
    the wake-up, then the Fill ring.  A call of the pool belongs to the phase
    that makes it. *)

Definition ring_phase (r : ring_id) : nat :=
  match r with
  | Completion => 1
  | Receive => 2
  | Transmit => 3
  | Fill => 4
  end.

Definition event_phase (e : event) : option nat :=
  match e with
  | EvWakeup => Some 3%nat
  | EvPeek r _ _ | EvRead r _ _ | EvRelease r _ => Some (ring_phase r)
  | EvPoolFree _ => None
  end.

Fixpoint nondecreasing (l : list nat) : bool :=
  match l with
  | x :: ((y :: _) as l') => (x <=? y)%nat && nondecreasing l'
  | _ => true
  end.

Definition phases_in_order (tr : list event) : Prop :=
  nondecreasing (omap event_phase tr) = true.

(** An event of the completion phase: a call on the Completion ring or a
    call of the pool. *)
Definition on_completion (e : event) : Prop :=
  event_phase e = Some (ring_phase Completion) ∨ event_phase e = None.

(** After replenishment the Fill ring is full or the pool is empty. *)
Definition fill_replenished (c : client_t) : Prop :=
  ring_avail (fill_queue c) = ring_size (fill_queue c) ∨ num_frames c = 0.

(** The shape of the events of a step that only wakes the kernel up and
    reclaims [k] completions starting at index [idx]. *)
Fixpoint reclaim_events (idx : Z) (addrs : list Z) : list event :=
  match addrs with
  | [] => []
  | a :: addrs' =>
      EvRead Completion idx a :: EvPoolFree a :: reclaim_events (u32 (idx + 1)) addrs'
  end.

(** ** Concrete states *)

Definition empty_ring (size : Z) : xsk_ring :=
  {| ring_size := size;
     ring_producer := 0;
     ring_consumer := 0;
     ring_slots := replicate (Z.to_nat size) 0 |}.

(** The static [client] once the rings exist, before the allocator is
    initialised. *)
Definition client_fresh : client_t :=
  {| send_queue := empty_ring 2048;
     complete_queue := empty_ring 2048;
     receive_queue := empty_ring 2048;
     fill_queue := empty_ring 2048;
     frames := replicate (Z.to_nat NUM_FRAMES) 0;
     num_frames := 0 |}.

(** The client after [client_init], for a frame size of 4096 bytes. *)
Definition client_ready : client_t :=
  set_pool client_fresh (all_frames 4096) NUM_FRAMES.

(** A pool that holds four free frames. *)
Definition client_four : client_t :=
  set_pool client_fresh
    ([0; 4096; 8192; 12288] ++ replicate (Z.to_nat NUM_FRAMES - 4) INVALID_FRAME) 4.

(** A pool that holds one free frame, [0]. *)
Definition client_one : client_t :=
  set_pool client_fresh (0 :: replicate (Z.to_nat NUM_FRAMES - 1) INVALID_FRAME) 1.

(** A client with one frame in the Completion ring and the others free. *)
Definition client_completed : client_t :=
  {| send_queue := empty_ring 2048;
     complete_queue :=
       {| ring_size := 2048;
          ring_producer := 1;
          ring_consumer := 0;
          ring_slots := 4095 * 4096 :: replicate 2047 0 |};
     receive_queue := empty_ring 2048;
     fill_queue := empty_ring 2048;
     frames := take 4095 (all_frames 4096) ++ [INVALID_FRAME];
     num_frames := 4095 |}.

(** [client_completed] after one polling step. *)
Definition client_reclaimed : client_t :=
  {| send_queue := empty_ring 2048;
     complete_queue :=
       {| ring_size := 2048;
          ring_producer := 1;
          ring_consumer := 1;
          ring_slots := 4095 * 4096 :: replicate 2047 0 |};
     receive_queue := empty_ring 2048;
     fill_queue := empty_ring 2048;
     frames := take 4095 (all_frames 4096) ++ [4095 * 4096];
     num_frames := 4096 |}.

(** ** Invariants of the pool with its callers *)

(** Frames in the pool and frames counted as outstanding never exceed the
    capacity. *)
Definition bounded (s : sys) : Prop :=
  pool_wf (cl s) ∧ num_frames (cl s) + outstanding s ≤ NUM_FRAMES.

(** No frame is twice in the free set and the hands of the callers. *)
Definition distinct (s : sys) : Prop :=
  pool_wf (cl s) ∧ NoDup (free_set (cl s) ++ live s).

(** Every frame of the free set and of the callers is a multiple of the
    frame size. *)
Definition all_aligned (FRAME_SIZE : Z) (s : sys) : Prop :=
  pool_wf (cl s) ∧ Forall (aligned FRAME_SIZE) (free_set (cl s) ++ live s).

(** The frame size fits the [int] arithmetic of [client_init]. *)
Definition frame_size_ok (FRAME_SIZE : Z) : Prop :=
  0 < FRAME_SIZE ∧ NUM_FRAMES * FRAME_SIZE ≤ INT_MAX.

(** The pool and the Completion ring are well formed and every frame is in
    exactly one place. *)
Definition conserving (FRAME_SIZE : Z) (s : sys) : Prop :=
  pool_wf (cl s) ∧ ring_wf (complete_queue (cl s)) ∧ conserved FRAME_SIZE s.

(** [client_four] after one allocation, and the same with its caller. *)
Definition client_three : client_t :=
  set_pool client_fresh
    ([0; 4096; 8192] ++ replicate (Z.to_nat NUM_FRAMES - 3) INVALID_FRAME) 3.

Definition sys_three : sys := after_alloc (start client_four) 12288 client_three.

(** [client_ready] after one allocation. *)
Definition client_taken : client_t :=
  set_pool client_fresh (take 4095 (all_frames 4096) ++ [INVALID_FRAME]) 4095.

(** ** More about the pool and the polling step *)

(** Every slot of the array outside the free set holds the sentinel. *)
Definition poisoned (c : client_t) : Prop :=
  ∀ i : nat, (Z.to_nat (num_frames c) ≤ i < Z.to_nat NUM_FRAMES)%nat →
    frames c !! i = Some INVALID_FRAME.

(** The callers may release any frame at any time. *)
Definition any_release (s : sys) (f : Z) : Prop := True.

(** Whether a sequence of calls asks, at some point, for more releases than
    it asked for allocations before, [bal] being the allocations minus the
    releases so far. *)
Fixpoint over_release (bal : Z) (ops : list op) : bool :=
  match ops with
  | [] => false
  | Alloc :: ops' => over_release (bal + 1) ops'
  | Free _ :: ops' => (bal <=? 0) || over_release (bal - 1) ops'
  end.

(** [const int buffer_size = NUM_FRAMES * FRAME_SIZE;] of [client_init]. *)
Definition buffer_size (FRAME_SIZE : Z) : Z := NUM_FRAMES * FRAME_SIZE.

(** [n] polling steps in a row, as the loop of [main] makes them while the
    kernel leaves the rings alone. *)
Fixpoint poll (NUM_DESCS : Z) (n : nat) (c : client_t) : outcome client_t :=
  match n with
  | O => Ok c
  | S n' =>
      '(c', _) ← client_update NUM_DESCS c;
      poll NUM_DESCS n' c'
  end.

(** A full pool with one descriptor in the Completion ring. *)
Definition client_spurious : client_t :=
  set_complete_queue client_ready
    {| ring_size := 2048;
       ring_producer := 1;
       ring_consumer := 0;
       ring_slots := 0 :: replicate 2047 0 |}.

(** A pool with three free frames and three descriptors in the Completion
    ring. *)
Definition client_backlog : client_t :=
  set_complete_queue client_three
    {| ring_size := 2048;
       ring_producer := 5;
       ring_consumer := 2;
       ring_slots := [0; 0; 16384; 20480; 24576] ++ replicate 2043 0 |}.

(** ** Start-up, teardown and [main]

    [client_init], [client_shutdown], the signal handlers, [cleanup] and
    [main] mostly call the system, libxdp and libbpf.  What those calls
    return is given by a [host]; the calls that are made are recorded in the
    order in which the code makes them. *)

(** The null pointer. *)
Definition NULL : Z := 0.

Inductive xdp_mode : Type := XDP_MODE_NATIVE | XDP_MODE_SKB.

Inductive signum : Type := SIGINT | SIGTERM | SIGHUP.

(** An entry of the list of [getifaddrs], as far as [client_init] reads it:
    the name, the [sa_family] of [ifa_addr] ([None] for a null [ifa_addr])
    and the flags. *)
Record ifaddrs : Type := {
  ifa_name : string;
  ifa_addr : option Z;
  ifa_flags : Z
}.

(** [client->interface_index = if_nametoindex( iap->ifa_name )] stores an
    [unsigned int] in the [int] field [interface_index]: a value above
    [INT_MAX] arrives as the negative number that is equal to it modulo
    [2 ^ 32]. *)
Definition int_of_unsigned (z : Z) : Z :=
  if z <=? INT_MAX then z else z - 2 ^ 32.

(** What the program sees of the platform: the constants [IFF_UP], [AF_INET],
    [XSK_UMEM__DEFAULT_FRAME_SIZE] and [XSK_RING_CONS__DEFAULT_NUM_DESCS] of
    the headers, and for every external call of [client_init] what it
    returns and what it stores through its pointer arguments.  The result of
    [if_nametoindex] is an [unsigned int]. *)
Record host : Type := {
  IFF_UP : Z;
  AF_INET : Z;
  FRAME_SIZE : Z;
  NUM_DESCS : Z;
  geteuid : Z;
  getifaddrs : Z * list ifaddrs;
  if_nametoindex : string → Z;
  if_nametoindex_unsigned : ∀ name, 0 ≤ if_nametoindex name < 2 ^ 32;
  xdp_program__open_file : Z;
  libxdp_get_error : Z → Z;
  xdp_program__attach : xdp_mode → Z;
  setrlimit : Z;
  getpagesize : Z;
  posix_memalign : Z * Z;
  xsk_umem__create : Z * (Z * xsk_ring * xsk_ring);
  bpf_map__fd : Z;
  xsk_socket__create : Z * (Z * xsk_ring * xsk_ring);
  xsk_socket__update_xskmap : Z
}.

(** The calls of the program, with the arguments that tell them apart. *)
Inductive call : Type :=
  | Printf (s : string)
  | Signal (sig : signum)
  | Geteuid
  | Getifaddrs
  | IfNametoindex (name : string)
  | Freeifaddrs
  | OpenFile (file section : string)
  | Attach (prog ifindex : Z) (mode : xdp_mode)
  | Detach (prog ifindex : Z) (mode : xdp_mode)
  | Close (prog : Z)
  | Setrlimit
  | PosixMemalign (alignment size : Z)
  | UmemCreate (buf size : Z)
  | FindMapFd (prog : Z) (map : string)
  | SocketCreate (name : string) (queue_id um : Z)
  | UpdateXskmap (sock fd : Z)
  | SocketDelete (sock : Z)
  | UmemDelete (um : Z)
  | FreeBuffer (buf : Z)
  | Fflush
  | Update (events : list event)
  | Usleep (usec : Z).

(** The static [client] with all the fields of [struct client_t], and the
    calls made so far. *)
Record process : Type := {
  interface_index : Z;
  program : Z;
  attached_native : bool;
  attached_skb : bool;
  buffer : Z;
  umem : Z;
  xsk : Z;
  core : client_t;
  calls : list call
}.

Definition log (e : call) (p : process) : process :=
  {| interface_index := interface_index p; program := program p;
     attached_native := attached_native p; attached_skb := attached_skb p;
     buffer := buffer p; umem := umem p; xsk := xsk p; core := core p;
     calls := calls p ++ [e] |}.

Definition set_interface_index (v : Z) (p : process) : process :=
  {| interface_index := v; program := program p;
     attached_native := attached_native p; attached_skb := attached_skb p;
     buffer := buffer p; umem := umem p; xsk := xsk p; core := core p;
     calls := calls p |}.

Definition set_program (v : Z) (p : process) : process :=
  {| interface_index := interface_index p; program := v;
     attached_native := attached_native p; attached_skb := attached_skb p;
     buffer := buffer p; umem := umem p; xsk := xsk p; core := core p;
     calls := calls p |}.

Definition set_attached_native (v : bool) (p : process) : process :=
  {| interface_index := interface_index p; program := program p;
     attached_native := v; attached_skb := attached_skb p;
     buffer := buffer p; umem := umem p; xsk := xsk p; core := core p;
     calls := calls p |}.

Definition set_attached_skb (v : bool) (p : process) : process :=
  {| interface_index := interface_index p; program := program p;
     attached_native := attached_native p; attached_skb := v;
     buffer := buffer p; umem := umem p; xsk := xsk p; core := core p;
     calls := calls p |}.

Definition set_buffer (v : Z) (p : process) : process :=
  {| interface_index := interface_index p; program := program p;
     attached_native := attached_native p; attached_skb := attached_skb p;
     buffer := v; umem := umem p; xsk := xsk p; core := core p;
     calls := calls p |}.

Definition set_core (c : client_t) (p : process) : process :=
  {| interface_index := interface_index p; program := program p;
     attached_native := attached_native p; attached_skb := attached_skb p;
     buffer := buffer p; umem := umem p; xsk := xsk p; core := c;
     calls := calls p |}.

(** What [xsk_umem__create] stores: the umem handle, the Fill ring and the
    Completion ring. *)
Definition set_umem (v : Z * xsk_ring * xsk_ring) (p : process) : process :=
  {| interface_index := interface_index p; program := program p;
     attached_native := attached_native p; attached_skb := attached_skb p;
     buffer := buffer p; umem := fst (fst v); xsk := xsk p;
     core := {| send_queue := send_queue (core p);
                complete_queue := snd v;
                receive_queue := receive_queue (core p);
                fill_queue := snd (fst v);
                frames := frames (core p);
                num_frames := num_frames (core p) |};
     calls := calls p |}.

(** What [xsk_socket__create] stores: the socket handle, the Receive ring
    and the Transmit ring. *)
Definition set_socket (v : Z * xsk_ring * xsk_ring) (p : process) : process :=
  {| interface_index := interface_index p; program := program p;
     attached_native := attached_native p; attached_skb := attached_skb p;
     buffer := buffer p; umem := umem p; xsk := fst (fst v);
     core := {| send_queue := snd v;
                complete_queue := complete_queue (core p);
                receive_queue := snd (fst v);
                fill_queue := fill_queue (core p);
                frames := frames (core p);
                num_frames := num_frames (core p) |};
     calls := calls p |}.

(** *** The messages *)

Definition nl : string := String (Ascii.ascii_of_nat 10) EmptyString.

Definition msg_not_root : string :=
  nl +:+ "error: this program must be run as root" +:+ nl +:+ nl.
Definition msg_getifaddrs : string :=
  nl +:+ "error: getifaddrs failed" +:+ nl +:+ nl.
Definition msg_found (name : string) : string :=
  "found network interface: '" +:+ name +:+ "'" +:+ nl.
Definition msg_if_nametoindex : string :=
  nl +:+ "error: if_nametoindex failed" +:+ nl +:+ nl.
Definition msg_no_interface (name : string) : string :=
  nl +:+ "error: could not find any network interface matching '" +:+ name +:+ "'".
Definition msg_loading : string := "loading client_xdp..." +:+ nl.
Definition msg_load_failed : string :=
  nl +:+ "error: could not load client_xdp program" +:+ nl +:+ nl.
Definition msg_loaded : string := "client_xdp loaded successfully." +:+ nl.
Definition msg_attaching : string := "attaching client_xdp to network interface" +:+ nl.
Definition msg_fallback : string := "falling back to skb mode..." +:+ nl.
Definition msg_attach_failed : string :=
  nl +:+ "error: failed to attach client_xdp program to interface" +:+ nl +:+ nl.
Definition msg_setrlimit : string :=
  nl +:+ "error: could not setrlimit" +:+ nl +:+ nl.
Definition msg_buffer : string :=
  nl +:+ "error: could not allocate buffer" +:+ nl +:+ nl.
Definition msg_umem : string :=
  nl +:+ "error: could not create umem" +:+ nl +:+ nl.
Definition msg_no_map : string :=
  nl +:+ "error: no xsks map found" +:+ nl +:+ nl.
Definition msg_socket : string :=
  nl +:+ "error: could not create xsk socket" +:+ nl +:+ nl.
Definition msg_xskmap : string :=
  nl +:+ "error: could not update xskmap" +:+ nl +:+ nl.
Definition msg_banner : string := nl +:+ "[client]" +:+ nl.

(** *** [client_init] *)

(** [printf( msg ); return 1;] *)
Definition fail_with (msg : string) (p : process) : outcome (option Z * process) :=
  Ok (Some 1, log (Printf msg) p).

(** The block is over and the function goes on. *)
Definition proceed (p : process) : outcome (option Z * process) := Ok (None, p).

(** A block of the function, which may return, followed by the rest. *)
Definition and_then (block : process → outcome (option Z * process))
    (rest : process → outcome (Z * process)) (p : process) : outcome (Z * process) :=
  '(r, p') ← block p;
  match r with
  | Some v => Ok (v, p')
  | None => rest p'
  end.

Infix ">>>" := and_then (at level 60, right associativity).

(** [if ( geteuid() != 0 )] *)
Definition check_root (h : host) (p : process) : outcome (option Z * process) :=
  let p := log Geteuid p in
  if geteuid h =? 0 then proceed p else fail_with msg_not_root p.

(** [iap->ifa_addr && ( iap->ifa_flags & IFF_UP ) &&
     iap->ifa_addr->sa_family == AF_INET] *)
Definition usable (h : host) (iap : ifaddrs) : bool :=
  match ifa_addr iap with
  | Some family => negb (Z.land (ifa_flags iap) (IFF_UP h) =? 0) && (family =? AF_INET h)
  | None => false
  end.

(** The loop over the list of [getifaddrs]; the result carries [found]. *)
Fixpoint scan_interfaces (h : host) (interface_name : string) (addrs : list ifaddrs)
    (p : process) : option Z * bool * process :=
  match addrs with
  | [] => (None, false, p)
  | iap :: rest =>
      if usable h iap && bool_decide (interface_name = ifa_name iap) then
        let p := log (Printf (msg_found (ifa_name iap))) p in
        let p := set_interface_index (int_of_unsigned (if_nametoindex h (ifa_name iap)))
                   (log (IfNametoindex (ifa_name iap)) p) in
        if interface_index p =? 0
        then (Some 1, false, log (Printf msg_if_nametoindex) p)
        else (None, true, p)
      else scan_interfaces h interface_name rest p
  end.

Definition find_interface (h : host) (interface_name : string) (p : process)
  : outcome (option Z * process) :=
  let p := log Getifaddrs p in
  if negb (fst (getifaddrs h) =? 0) then fail_with msg_getifaddrs p
  else
    let '(r, found, p) := scan_interfaces h interface_name (snd (getifaddrs h)) p in
    match r with
    | Some v => Ok (Some v, p)
    | None =>
        let p := log Freeifaddrs p in
        if found then proceed p else fail_with (msg_no_interface interface_name) p
    end.

Definition load_program (h : host) (p : process) : outcome (option Z * process) :=
  let p := log (Printf msg_loading) p in
  let p := set_program (xdp_program__open_file h)
             (log (OpenFile "client_xdp.o" "client_xdp") p) in
  if negb (libxdp_get_error h (program p) =? 0) then fail_with msg_load_failed p
  else proceed (log (Printf msg_loaded) p).

Definition attach_program (h : host) (p : process) : outcome (option Z * process) :=
  let p := log (Printf msg_attaching) p in
  let p := log (Attach (program p) (interface_index p) XDP_MODE_NATIVE) p in
  if xdp_program__attach h XDP_MODE_NATIVE =? 0 then proceed (set_attached_native true p)
  else
    let p := log (Printf msg_fallback) p in
    let p := log (Attach (program p) (interface_index p) XDP_MODE_SKB) p in
    if xdp_program__attach h XDP_MODE_SKB =? 0 then proceed (set_attached_skb true p)
    else fail_with msg_attach_failed p.

Definition unlimit_memlock (h : host) (p : process) : outcome (option Z * process) :=
  let p := log Setrlimit p in
  if negb (setrlimit h =? 0) then fail_with msg_setrlimit p else proceed p.

Definition allocate_buffer (h : host) (p : process) : outcome (option Z * process) :=
  let p := set_buffer (snd (posix_memalign h))
             (log (PosixMemalign (getpagesize h) (buffer_size (FRAME_SIZE h))) p) in
  if negb (fst (posix_memalign h) =? 0) then fail_with msg_buffer p else proceed p.

Definition create_umem (h : host) (p : process) : outcome (option Z * process) :=
  let p := set_umem (snd (xsk_umem__create h))
             (log (UmemCreate (buffer p) (buffer_size (FRAME_SIZE h))) p) in
  if negb (fst (xsk_umem__create h) =? 0) then fail_with msg_umem p else proceed p.

Definition find_xsks_map (h : host) (p : process) : outcome (option Z * process) :=
  let p := log (FindMapFd (program p) "xsks_map") p in
  if bpf_map__fd h <? 0 then fail_with msg_no_map p else proceed p.

Definition create_socket (h : host) (interface_name : string) (p : process)
  : outcome (option Z * process) :=
  let p := set_socket (snd (xsk_socket__create h))
             (log (SocketCreate interface_name 0 (umem p)) p) in
  if negb (fst (xsk_socket__create h) =? 0) then fail_with msg_socket p else proceed p.

Definition update_xskmap (h : host) (p : process) : outcome (option Z * process) :=
  let p := log (UpdateXskmap (xsk p) (bpf_map__fd h)) p in
  if negb (xsk_socket__update_xskmap h =? 0) then fail_with msg_xskmap p else proceed p.

(** The last block: the allocator, and [return 0]. *)
Definition init_allocator (h : host) (p : process) : outcome (Z * process) :=
  c ← client_init_frames (FRAME_SIZE h) (core p);
  Ok (0, set_core c p).

(** [int client_init( struct client_t * client, const char * interface_name )] *)
Definition client_init (h : host) (interface_name : string) : process → outcome (Z * process) :=
  check_root h >>>
  find_interface h interface_name >>>
  load_program h >>>
  attach_program h >>>
  unlimit_memlock h >>>
  allocate_buffer h >>>
  create_umem h >>>
  find_xsks_map h >>>
  create_socket h interface_name >>>
  update_xskmap h >>>
  init_allocator h.

(** *** [client_shutdown], [cleanup] and the handlers *)

(** [void client_shutdown( struct client_t * client )]; its argument is the
    address of the static [client], so [assert( client )] holds. *)
Definition client_shutdown (p : process) : process :=
  if program p =? NULL then p
  else
    let p := if attached_native p
             then log (Detach (program p) (interface_index p) XDP_MODE_NATIVE) p else p in
    let p := if attached_skb p
             then log (Detach (program p) (interface_index p) XDP_MODE_SKB) p else p in
    let p := log (Close (program p)) p in
    let p := log (SocketDelete (xsk p)) p in
    let p := log (UmemDelete (umem p)) p in
    log (FreeBuffer (buffer p)) p.

(** [static void cleanup()] *)
Definition cleanup (p : process) : process := log Fflush (client_shutdown p).

(** [void interrupt_handler( int signal )], on the flag [quit]. *)
Definition interrupt_handler (sig : signum) (quit : bool) : bool := true.

(** [void clean_shutdown_handler( int signal )], on the flag [quit]. *)
Definition clean_shutdown_handler (sig : signum) (quit : bool) : bool := true.

(** The handler that [main] installs for a signal. *)
Definition handler (sig : signum) : signum → bool → bool :=
  match sig with
  | SIGINT => interrupt_handler
  | SIGTERM | SIGHUP => clean_shutdown_handler
  end.

(** *** [main] *)

(** What happens between two tests of [quit]: the signals that were
    delivered, and what the kernel made of the four rings (send, complete,
    receive, fill), if it touched them. *)
Record tick : Type := {
  delivered : list signum;
  kernel_rings : option (xsk_ring * xsk_ring * xsk_ring * xsk_ring)
}.

Definition deliver (sigs : list signum) (quit : bool) : bool :=
  foldl (λ q sig, handler sig sig q) quit sigs.

Definition kernel_acts (t : tick) (c : client_t) : client_t :=
  match kernel_rings t with
  | None => c
  | Some (tx, comp, rx, fill) =>
      {| send_queue := tx; complete_queue := comp; receive_queue := rx;
         fill_queue := fill; frames := frames c; num_frames := num_frames c |}
  end.

(** [while ( !quit ) { client_update( &client ); usleep( 1000000 ); }], one
    tick for each test of [quit]; [None] when the ticks run out with the
    loop still going. *)
Fixpoint main_loop (h : host) (sched : list tick) (quit : bool) (p : process)
  : outcome (option process) :=
  match sched with
  | [] => Ok None
  | t :: sched' =>
      let quit := deliver (delivered t) quit in
      let p := set_core (kernel_acts t (core p)) p in
      if quit then Ok (Some p)
      else
        '(c, events) ← client_update (NUM_DESCS h) (core p);
        main_loop h sched' quit (log (Usleep 1000000) (log (Update events) (set_core c p)))
  end.

(** The static [client] and an empty record of calls: statics start out as
    zero. *)
Definition zero_ring : xsk_ring :=
  {| ring_size := 0; ring_producer := 0; ring_consumer := 0; ring_slots := [] |}.

Definition process_start : process :=
  {| interface_index := 0; program := NULL;
     attached_native := false; attached_skb := false;
     buffer := NULL; umem := NULL; xsk := NULL;
     core := {| send_queue := zero_ring; complete_queue := zero_ring;
                receive_queue := zero_ring; fill_queue := zero_ring;
                frames := replicate (Z.to_nat NUM_FRAMES) 0; num_frames := 0 |};
     calls := [] |}.

(** [int main( int argc, char *argv[] )]; [None] when the ticks run out
    before the loop ends. *)
Definition main (h : host) (sched : list tick) : outcome (option (Z * process)) :=
  let p := log (Printf msg_banner) process_start in
  let p := log (Signal SIGINT) p in
  let p := log (Signal SIGTERM) p in
  let p := log (Signal SIGHUP) p in
  '(r, p) ← client_init h "enp8s0f0" p;
  if negb (r =? 0) then Ok (Some (1, cleanup p))
  else
    res ← main_loop h sched false p;
    match res with
    | None => Ok None
    | Some p => Ok (Some (0, log (Printf nl) (cleanup p)))
    end.

(** *** What the code's tests amount to *)

(** The first entry of the list that is usable and has the wanted name. *)
Fixpoint first_match (h : host) (interface_name : string) (addrs : list ifaddrs)
  : option ifaddrs :=
  match addrs with
  | [] => None
  | iap :: rest =>
      if usable h iap && bool_decide (interface_name = ifa_name iap) then Some iap
      else first_match h interface_name rest
  end.

(** Every external call of [client_init] succeeds. *)
Definition host_ready (h : host) (interface_name : string) : Prop :=
  geteuid h = 0 ∧
  fst (getifaddrs h) = 0 ∧
  (∃ iap, first_match h interface_name (snd (getifaddrs h)) = Some iap ∧
          if_nametoindex h (ifa_name iap) ≠ 0) ∧
  libxdp_get_error h (xdp_program__open_file h) = 0 ∧
  (xdp_program__attach h XDP_MODE_NATIVE = 0 ∨ xdp_program__attach h XDP_MODE_SKB = 0) ∧
  setrlimit h = 0 ∧
  fst (posix_memalign h) = 0 ∧
  fst (xsk_umem__create h) = 0 ∧
  0 ≤ bpf_map__fd h ∧
  fst (xsk_socket__create h) = 0 ∧
  xsk_socket__update_xskmap h = 0.

(** An error message: a [printf] of a text that starts with a line feed and
    [error:]. *)
Definition is_error (e : call) : bool :=
  match e with
  | Printf s => String.prefix (nl +:+ "error:") s
  | _ => false
  end.

Definition is_attach (mode : xdp_mode) (e : call) : bool :=
  match e, mode with
  | Attach _ _ XDP_MODE_NATIVE, XDP_MODE_NATIVE => true
  | Attach _ _ XDP_MODE_SKB, XDP_MODE_SKB => true
  | _, _ => false
  end.

Definition is_update (e : call) : bool :=
  match e with Update _ => true | _ => false end.

Definition is_freeifaddrs (e : call) : bool :=
  match e with Freeifaddrs => true | _ => false end.

Definition is_fflush (e : call) : bool :=
  match e with Fflush => true | _ => false end.

Definition is_usleep (e : call) : bool :=
  match e with Usleep _ => true | _ => false end.

(** How often a kind of call occurs. *)
Definition count (f : call → bool) (l : list call) : nat := length (filter (λ e, f e = true) l).

(** The array of the pool has its declared length. *)
Definition process_wf (p : process) : Prop :=
  length (frames (core p)) = Z.to_nat NUM_FRAMES.

(** [client_init] gets as far as loading the program: the user is root,
    [getifaddrs] worked and the interface was found, with an index. *)
Definition interface_found (h : host) (interface_name : string) : Prop :=
  geteuid h = 0 ∧ fst (getifaddrs h) = 0 ∧
  ∃ iap, first_match h interface_name (snd (getifaddrs h)) = Some iap ∧
         if_nametoindex h (ifa_name iap) ≠ 0.

(** The tests of [quit] that saw no signal, up to the first that saw one. *)
Fixpoint ticks_before_signal (sched : list tick) : nat :=
  match sched with
  | [] => 0
  | t :: sched' =>
      match delivered t with
      | [] => S (ticks_before_signal sched')
      | _ :: _ => 0
      end
  end.

(** The calls of [client_shutdown] for a non-null program. *)
Definition teardown (p : process) : list call :=
  (if attached_native p then [Detach (program p) (interface_index p) XDP_MODE_NATIVE] else []) ++
  (if attached_skb p then [Detach (program p) (interface_index p) XDP_MODE_SKB] else []) ++
  [Close (program p); SocketDelete (xsk p); UmemDelete (umem p); FreeBuffer (buffer p)].

(** A host on which everything succeeds, with the native mode refused. *)
Definition host_fine : host :=
  {| IFF_UP := 1; AF_INET := 2; FRAME_SIZE := 4096; NUM_DESCS := 2048;
     geteuid := 0;
     getifaddrs := (0, [ {| ifa_name := "lo"; ifa_addr := Some 2; ifa_flags := 73 |};
                         {| ifa_name := "enp8s0f0"; ifa_addr := Some 17; ifa_flags := 4163 |};
                         {| ifa_name := "enp8s0f0"; ifa_addr := Some 2; ifa_flags := 4163 |} ]);
     if_nametoindex := λ name, if bool_decide (name = "enp8s0f0") then 2 else 0;
     if_nametoindex_unsigned := λ name, ltac:(cbv beta; case_bool_decide; lia);
     xdp_program__open_file := 4242;
     libxdp_get_error := λ _, 0;
     xdp_program__attach := λ mode, match mode with XDP_MODE_NATIVE => -95 | XDP_MODE_SKB => 0 end;
     setrlimit := 0;
     getpagesize := 4096;
     posix_memalign := (0, 1048576);
     xsk_umem__create := (0, (77, empty_ring 2048, empty_ring 2048));
     bpf_map__fd := 5;
     xsk_socket__create := (0, (78, empty_ring 2048, empty_ring 2048));
     xsk_socket__update_xskmap := 0 |}.

(** The same host for a user who is not root. *)
Definition host_not_root : host :=
  {| IFF_UP := 1; AF_INET := 2; FRAME_SIZE := 4096; NUM_DESCS := 2048;
     geteuid := 1000;
     getifaddrs := getifaddrs host_fine;
     if_nametoindex := if_nametoindex host_fine;
     if_nametoindex_unsigned := if_nametoindex_unsigned host_fine;
     xdp_program__open_file := 4242;
     libxdp_get_error := λ _, 0;
     xdp_program__attach := xdp_program__attach host_fine;
     setrlimit := 0;
     getpagesize := 4096;
     posix_memalign := (0, 1048576);
     xsk_umem__create := xsk_umem__create host_fine;
     bpf_map__fd := 5;
     xsk_socket__create := xsk_socket__create host_fine;
     xsk_socket__update_xskmap := 0 |}.

(** The same host with a program that attaches in no mode. *)
Definition host_no_attach : host :=
  {| IFF_UP := 1; AF_INET := 2; FRAME_SIZE := 4096; NUM_DESCS := 2048;
     geteuid := 0;
     getifaddrs := getifaddrs host_fine;
     if_nametoindex := if_nametoindex host_fine;
     if_nametoindex_unsigned := if_nametoindex_unsigned host_fine;
     xdp_program__open_file := 4242;
     libxdp_get_error := λ _, 0;
     xdp_program__attach := λ _, -95;
     setrlimit := 0;
     getpagesize := 4096;
     posix_memalign := (0, 1048576);
     xsk_umem__create := xsk_umem__create host_fine;
     bpf_map__fd := 5;
     xsk_socket__create := xsk_socket__create host_fine;
     xsk_socket__update_xskmap := 0 |}.

(** The same host with an interface whose index cannot be found. *)
Definition host_no_index : host :=
  {| IFF_UP := 1; AF_INET := 2; FRAME_SIZE := 4096; NUM_DESCS := 2048;
     geteuid := 0;
     getifaddrs := getifaddrs host_fine;
     if_nametoindex := λ _, 0;
     if_nametoindex_unsigned := λ _, ltac:(lia);
     xdp_program__open_file := 4242;
     libxdp_get_error := λ _, 0;
     xdp_program__attach := xdp_program__attach host_fine;
     setrlimit := 0;
     getpagesize := 4096;
     posix_memalign := (0, 1048576);
     xsk_umem__create := xsk_umem__create host_fine;
     bpf_map__fd := 5;
     xsk_socket__create := xsk_socket__create host_fine;
     xsk_socket__update_xskmap := 0 |}.

(** Ticks without a signal and without the kernel. *)
Definition quiet : tick := {| delivered := []; kernel_rings := None |}.

(** A tick with one signal. *)
Definition signalled (sig : signum) : tick :=
  {| delivered := [sig]; kernel_rings := None |}.

(** The same host with a program that does not load: [xdp_program__open_file]
    returns an error pointer. *)
Definition host_no_program : host :=
  {| IFF_UP := 1; AF_INET := 2; FRAME_SIZE := 4096; NUM_DESCS := 2048;
     geteuid := 0;
     getifaddrs := getifaddrs host_fine;
     if_nametoindex := if_nametoindex host_fine;
     if_nametoindex_unsigned := if_nametoindex_unsigned host_fine;
     xdp_program__open_file := 2 ^ 64 - 2;
     libxdp_get_error := λ _, -2;
     xdp_program__attach := xdp_program__attach host_fine;
     setrlimit := 0;
     getpagesize := 4096;
     posix_memalign := (0, 1048576);
     xsk_umem__create := xsk_umem__create host_fine;
     bpf_map__fd := 5;
     xsk_socket__create := xsk_socket__create host_fine;
     xsk_socket__update_xskmap := 0 |}.

(** The same host with an interface whose index is above [INT_MAX]. *)
Definition host_wide_index : host :=
  {| IFF_UP := 1; AF_INET := 2; FRAME_SIZE := 4096; NUM_DESCS := 2048;
     geteuid := 0;
     getifaddrs := getifaddrs host_fine;
     if_nametoindex := λ _, 2147483648;
     if_nametoindex_unsigned := λ _, ltac:(lia);
     xdp_program__open_file := 4242;
     libxdp_get_error := λ _, 0;
     xdp_program__attach := xdp_program__attach host_fine;
     setrlimit := 0;
     getpagesize := 4096;
     posix_memalign := (0, 1048576);
     xsk_umem__create := xsk_umem__create host_fine;
     bpf_map__fd := 5;
     xsk_socket__create := xsk_socket__create host_fine;
     xsk_socket__update_xskmap := 0 |}.

(** The process that [client_init] leaves on a host, from the zeroed
    client. *)
Definition started (h : host) : process :=
  match client_init h "enp8s0f0" process_start with
  | Ok (_, p) => p
  | _ => process_start
  end.

(** The process that [main] leaves on a host. *)
Definition exited (h : host) (sched : list tick) : process :=
  match main h sched with
  | Ok (Some (_, p)) => p
  | _ => process_start
  end.

(** ** Proof automation *)

(** Induction over the calls that lead to a state: the invariant holds at
    the start, and [step_lemma] carries it across one call. *)
Ltac by_reachability step_lemma :=
  match goal with
  | Hreach : rtc _ _ ?s |- _ =>
      revert s Hreach; apply rtc_ind_r;
      [|intros ? ? _ ? ?; eapply step_lemma; eassumption]
  end.

(** * Properties *)

(** ** Machine arithmetic *)

Lemma u32_small z : 0 ≤ z < 2 ^ 32 → u32 z = z.
Proof. intros H. unfold u32. by apply Z.mod_small. Qed.

Lemma NUM_FRAMES_u32 z : 0 ≤ z ≤ NUM_FRAMES → u32 z = z.
Proof. intros H. apply u32_small. unfold NUM_FRAMES in H. lia. Qed.

(** ** Reading and writing the array *)

Lemma array_get_Some a i x :
  0 ≤ i → a !! Z.to_nat i = Some x → array_get a i = Ok x.
Proof. intros _ H. unfold array_get. by rewrite H. Qed.

Lemma array_set_lt a i x :
  (Z.to_nat i < length a)%nat → array_set a i x = Ok (<[Z.to_nat i := x]> a).
Proof. intros H. unfold array_set. by rewrite decide_True. Qed.

(** ** What one call of the allocator does *)

Lemma alloc_empty c :
  num_frames c = 0 → client_alloc_frame c = Ok (INVALID_FRAME, c).
Proof. intros H. unfold client_alloc_frame. by rewrite H. Qed.

Lemma alloc_nonempty c :
  pool_wf c → 0 < num_frames c →
  ∃ f, frames c !! Z.to_nat (num_frames c - 1) = Some f ∧
       client_alloc_frame c =
         Ok (f, set_pool c (<[Z.to_nat (num_frames c - 1) := INVALID_FRAME]> (frames c))
                  (num_frames c - 1)).
Proof.
  intros [Hlen Hn] Hpos.
  assert (Hlt : (Z.to_nat (num_frames c - 1) < length (frames c))%nat) by lia.
  destruct (lookup_lt_is_Some_2 _ _ Hlt) as [f Hf].
  exists f. split; [done|].
  unfold client_alloc_frame.
  destruct (Z.eqb_spec (num_frames c) 0) as [?|_]; [lia|].
  rewrite NUM_FRAMES_u32 by lia.
  rewrite (array_get_Some _ _ f) by (done || lia).
  rewrite array_set_lt by done. done.
Qed.

Lemma free_room c f :
  pool_wf c → num_frames c < NUM_FRAMES →
  client_free_frame c f =
    Ok (set_pool c (<[Z.to_nat (num_frames c) := f]> (frames c)) (num_frames c + 1)).
Proof.
  intros [Hlen Hn] Hlt. unfold client_free_frame.
  destruct (Z.ltb_spec (num_frames c) NUM_FRAMES) as [_|?]; [|lia]. simpl.
  rewrite array_set_lt by lia. simpl.
  by rewrite NUM_FRAMES_u32 by lia.
Qed.

Lemma free_full c f :
  NUM_FRAMES ≤ num_frames c → client_free_frame c f = AssertFail.
Proof.
  intros H. unfold client_free_frame.
  destruct (Z.ltb_spec (num_frames c) NUM_FRAMES) as [?|_]; [lia|]. done.
Qed.

Lemma free_Ok_inv c f c' :
  pool_wf c → client_free_frame c f = Ok c' →
  num_frames c < NUM_FRAMES ∧
  c' = set_pool c (<[Z.to_nat (num_frames c) := f]> (frames c)) (num_frames c + 1).
Proof.
  intros Hwf H.
  destruct (Z.lt_ge_cases (num_frames c) NUM_FRAMES) as [Hlt|Hge].
  - split; [done|]. rewrite free_room in H by done. congruence.
  - rewrite free_full in H by done. discriminate.
Qed.

Lemma alloc_Ok_inv c f c' :
  pool_wf c → client_alloc_frame c = Ok (f, c') →
  (num_frames c = 0 ∧ f = INVALID_FRAME ∧ c' = c) ∨
  (0 < num_frames c ∧ frames c !! Z.to_nat (num_frames c - 1) = Some f ∧
   c' = set_pool c (<[Z.to_nat (num_frames c - 1) := INVALID_FRAME]> (frames c))
          (num_frames c - 1)).
Proof.
  intros Hwf H.
  destruct (Z.eq_dec (num_frames c) 0) as [Hz|Hnz].
  - left. rewrite alloc_empty in H by done. naive_solver.
  - right. destruct Hwf as [Hlen Hn].
    destruct (alloc_nonempty c) as (g & Hg & Ha); [done|lia|].
    rewrite Ha in H. injection H as <- <-. split_and!; [lia|done|done].
Qed.

(** ** The free set across a call *)

Lemma free_set_set_pool c a n : free_set (set_pool c a n) = take (Z.to_nat n) a.
Proof. done. Qed.

Lemma free_set_length c :
  pool_wf c → length (free_set c) = Z.to_nat (num_frames c).
Proof. intros [Hlen Hn]. unfold free_set. rewrite length_take. lia. Qed.

Lemma free_set_after_alloc c f :
  pool_wf c → 0 < num_frames c →
  frames c !! Z.to_nat (num_frames c - 1) = Some f →
  free_set c =
    free_set (set_pool c (<[Z.to_nat (num_frames c - 1) := INVALID_FRAME]> (frames c))
                (num_frames c - 1)) ++ [f].
Proof.
  intros [Hlen Hn] Hpos Hf. rewrite free_set_set_pool. unfold free_set.
  rewrite take_insert_ge by lia.
  replace (Z.to_nat (num_frames c)) with (S (Z.to_nat (num_frames c - 1))) by lia.
  by apply take_S_r.
Qed.

Lemma free_set_after_free c f :
  pool_wf c → num_frames c < NUM_FRAMES →
  free_set (set_pool c (<[Z.to_nat (num_frames c) := f]> (frames c)) (num_frames c + 1)) =
    free_set c ++ [f].
Proof.
  intros [Hlen Hn] Hlt. rewrite free_set_set_pool. unfold free_set.
  replace (Z.to_nat (num_frames c + 1)) with (S (Z.to_nat (num_frames c))) by lia.
  rewrite (take_S_r _ _ f) by (apply list_lookup_insert_eq; lia).
  by rewrite take_insert_ge by lia.
Qed.

Lemma pool_wf_set_pool c a n :
  length a = Z.to_nat NUM_FRAMES → 0 ≤ n ≤ NUM_FRAMES → pool_wf (set_pool c a n).
Proof. by split. Qed.

Lemma alloc_wf c f c' :
  pool_wf c → client_alloc_frame c = Ok (f, c') → pool_wf c'.
Proof.
  intros Hwf H. destruct (alloc_Ok_inv _ _ _ Hwf H) as [(_ & _ & ->)|(Hpos & _ & ->)]; [done|].
  destruct Hwf as [Hlen Hn]. apply pool_wf_set_pool; [by rewrite length_insert|lia].
Qed.

Lemma free_wf c f c' :
  pool_wf c → client_free_frame c f = Ok c' → pool_wf c'.
Proof.
  intros Hwf H. destruct (free_Ok_inv _ _ _ Hwf H) as [Hlt ->].
  destruct Hwf as [Hlen Hn]. apply pool_wf_set_pool; [by rewrite length_insert|lia].
Qed.

(** The free set loses its last frame to an allocation, or is empty and
    stays so. *)
Lemma alloc_free_set c f c' :
  pool_wf c → client_alloc_frame c = Ok (f, c') →
  (num_frames c = 0 ∧ f = INVALID_FRAME ∧ c' = c) ∨
  (0 < num_frames c ∧ free_set c = free_set c' ++ [f]).
Proof.
  intros Hwf H. destruct (alloc_Ok_inv _ _ _ Hwf H) as [?|(Hpos & Hf & ->)]; [by left|].
  right. split; [done|]. by apply free_set_after_alloc.
Qed.

(** A release appends the frame to the free set. *)
Lemma free_free_set c f c' :
  pool_wf c → client_free_frame c f = Ok c' → free_set c' = free_set c ++ [f].
Proof.
  intros Hwf H. destruct (free_Ok_inv _ _ _ Hwf H) as [Hlt ->].
  by apply free_set_after_free.
Qed.

Lemma free_set_empty c : num_frames c = 0 → free_set c = [].
Proof. intros H. unfold free_set. by rewrite H. Qed.

Lemma free_set_nil_iff c : pool_wf c → free_set c = [] ↔ num_frames c = 0.
Proof.
  intros Hwf. split; [|apply free_set_empty].
  intros H. apply (f_equal length) in H. rewrite free_set_length in H by done.
  destruct Hwf as [_ Hn]. simpl in H. lia.
Qed.

(** ** Concrete states are well formed *)

Lemma client_four_wf : pool_wf client_four.
Proof. split; [by vm_compute|]. unfold NUM_FRAMES. simpl. lia. Qed.

Lemma client_four_valid : free_valid client_four.
Proof. unfold free_valid. vm_compute free_set. by repeat constructor. Qed.

Lemma client_one_wf : pool_wf client_one.
Proof. split; [by vm_compute|]. unfold NUM_FRAMES. simpl. lia. Qed.

(** ** C4: allocation *)

(** C4.  In every well-formed pool [client_alloc_frame] returns (it never
    stops the process).  When the free set is empty it returns
    [INVALID_FRAME] and leaves the pool as it is; otherwise it returns a
    frame of the free set and removes it.  It reports exhaustion, the
    sentinel with the pool untouched, exactly when the free set is empty;
    and when the free set holds frames only, no sentinel, the returned value
    alone tells: it is the sentinel exactly when the free set is empty. *)
Theorem client_alloc_frame_spec c :
  pool_wf c →
  ∃ f c', client_alloc_frame c = Ok (f, c') ∧
    ((free_set c = [] ∧ f = INVALID_FRAME ∧ c' = c) ∨
     (f ∈ free_set c ∧ free_set c = free_set c' ++ [f] ∧
      num_frames c' = num_frames c - 1)) ∧
    (f = INVALID_FRAME ∧ c' = c ↔ free_set c = []) ∧
    (free_valid c → (f = INVALID_FRAME ↔ free_set c = [])).
Proof.
  intros Hwf.
  destruct (Z.eq_dec (num_frames c) 0) as [Hz|Hnz].
  - exists INVALID_FRAME, c. rewrite alloc_empty by done.
    pose proof (free_set_empty c Hz) as Hnil.
    split_and!; [done|by left|done|done].
  - assert (Hpos : 0 < num_frames c) by (destruct Hwf; lia).
    destruct (alloc_nonempty c Hwf Hpos) as (f & Hf & Ha).
    pose proof (free_set_after_alloc c f Hwf Hpos Hf) as Hset.
    eexists f, _. split; [exact Ha|].
    assert (Hin : f ∈ free_set c) by (rewrite Hset; set_solver).
    assert (Hne : free_set c ≠ []) by (by rewrite free_set_nil_iff).
    split_and!.
    + right. split_and!; [done|done|done].
    + split; [|done]. intros [_ Heq]. apply (f_equal num_frames) in Heq.
      simpl in Heq. lia.
    + intros Hval. split; [|done].
      intros ->. unfold free_valid in Hval. rewrite Forall_forall in Hval.
      by destruct (Hval _ Hin).
Qed.

Lemma client_alloc_frame_spec_witness :
  ∃ f c', client_alloc_frame client_four = Ok (f, c') ∧
    ((free_set client_four = [] ∧ f = INVALID_FRAME ∧ c' = client_four) ∨
     (f ∈ free_set client_four ∧ free_set client_four = free_set c' ++ [f] ∧
      num_frames c' = num_frames client_four - 1)) ∧
    (f = INVALID_FRAME ∧ c' = client_four ↔ free_set client_four = []) ∧
    (free_valid client_four → (f = INVALID_FRAME ↔ free_set client_four = [])).
Proof.
  apply (client_alloc_frame_spec client_four).
  exact client_four_wf.
Defined.

(** ** C5: allocate, then release *)

(** C5.  In a pool with a non-empty free set, an allocation followed at once
    by the release of the frame it returned gives back the pool as it was:
    the same free set, frame for frame. *)
Theorem alloc_free_round_trip c :
  pool_wf c → free_set c ≠ [] →
  ∃ f c' c'', client_alloc_frame c = Ok (f, c') ∧
    client_free_frame c' f = Ok c'' ∧
    free_set c'' = free_set c ∧ c'' = c.
Proof.
  intros Hwf Hne.
  assert (Hpos : 0 < num_frames c).
  { destruct (Z.eq_dec (num_frames c) 0) as [Hz|?]; [|destruct Hwf; lia].
    by destruct Hne; apply free_set_empty. }
  destruct (alloc_nonempty c Hwf Hpos) as (f & Hf & Ha).
  pose proof (alloc_wf _ _ _ Hwf Ha) as Hwf'.
  assert (Hback : client_free_frame
            (set_pool c (<[Z.to_nat (num_frames c - 1) := INVALID_FRAME]> (frames c))
               (num_frames c - 1)) f = Ok c).
  { rewrite free_room; [|done|simpl; destruct Hwf; lia].
    simpl. rewrite list_insert_insert_eq, (list_insert_id _ _ f) by done.
    replace (num_frames c - 1 + 1) with (num_frames c) by lia.
    by destruct c. }
  eexists f, _, c. by split_and!.
Qed.

Lemma alloc_free_round_trip_witness :
  ∃ f c' c'', client_alloc_frame client_four = Ok (f, c') ∧
    client_free_frame c' f = Ok c'' ∧
    free_set c'' = free_set client_four ∧ c'' = client_four.
Proof.
  apply (alloc_free_round_trip client_four).
  - exact client_four_wf.
  - by vm_compute.
Defined.

(** ** C9: release, then allocate *)

Lemma free_then_alloc c f :
  pool_wf c → num_frames c < NUM_FRAMES →
  ∃ c1 c2, client_free_frame c f = Ok c1 ∧
    client_alloc_frame c1 = Ok (f, c2) ∧
    free_set c2 = free_set c.
Proof.
  intros Hwf Hlt.
  pose proof (free_room c f Hwf Hlt) as Hfree.
  pose proof (free_wf _ _ _ Hwf Hfree) as Hwf1.
  destruct Hwf as [Hlen Hn].
  destruct (alloc_nonempty _ Hwf1) as (g & Hg & Ha); [simpl; lia|].
  simpl in Hg, Ha.
  replace (num_frames c + 1 - 1) with (num_frames c) in Hg, Ha by lia.
  rewrite list_lookup_insert_eq in Hg by lia. injection Hg as <-.
  eexists _, _. split_and!; [exact Hfree|exact Ha|].
  rewrite free_set_set_pool. unfold free_set.
  by rewrite !take_insert_ge by lia.
Qed.

(** C9.  In a pool that is not full, the release of a frame followed at once
    by an allocation returns that very frame: the pool is a stack.  The free
    set and the counter are the ones before the release, and of the array
    only the slot that held the frame changed, to the sentinel. *)
Theorem free_alloc_lifo c f :
  pool_wf c → num_frames c < NUM_FRAMES →
  ∃ c1 c2, client_free_frame c f = Ok c1 ∧
    client_alloc_frame c1 = Ok (f, c2) ∧
    free_set c2 = free_set c ∧
    num_frames c2 = num_frames c ∧
    frames c2 = <[Z.to_nat (num_frames c) := INVALID_FRAME]> (frames c).
Proof.
  intros Hwf Hlt.
  pose proof (free_room c f Hwf Hlt) as Hfree.
  pose proof (free_wf _ _ _ Hwf Hfree) as Hwf1.
  destruct Hwf as [Hlen Hn].
  destruct (alloc_nonempty _ Hwf1) as (g & Hg & Ha); [simpl; lia|].
  simpl in Hg, Ha.
  replace (num_frames c + 1 - 1) with (num_frames c) in Hg, Ha by lia.
  rewrite list_lookup_insert_eq in Hg by lia. injection Hg as <-.
  rewrite list_insert_insert_eq in Ha.
  eexists _, _. split_and!; [exact Hfree|exact Ha| |done|done].
  rewrite free_set_set_pool. unfold free_set.
  by rewrite take_insert_ge by lia.
Qed.

Lemma free_alloc_lifo_witness :
  ∃ c1 c2, client_free_frame client_four 16384 = Ok c1 ∧
    client_alloc_frame c1 = Ok (16384, c2) ∧
    free_set c2 = free_set client_four ∧
    num_frames c2 = num_frames client_four ∧
    frames c2 = <[Z.to_nat (num_frames client_four) := INVALID_FRAME]> (frames client_four).
Proof.
  apply (free_alloc_lifo client_four 16384).
  - exact client_four_wf.
  - by vm_compute.
Defined.

(** ** C7: running out of frames *)

Lemma alloc_valid_step c :
  pool_wf c → free_valid c → 0 < num_frames c →
  ∃ f c', client_alloc_frame c = Ok (f, c') ∧ f ≠ INVALID_FRAME ∧
    free_set c = free_set c' ++ [f] ∧ num_frames c' = num_frames c - 1 ∧
    pool_wf c' ∧ free_valid c'.
Proof.
  intros Hwf Hval Hpos.
  destruct (alloc_nonempty c Hwf Hpos) as (f & Hf & Ha).
  pose proof (free_set_after_alloc c f Hwf Hpos Hf) as Hset.
  pose proof (alloc_wf _ _ _ Hwf Ha) as Hwf'.
  unfold free_valid in *. rewrite Hset in Hval.
  apply Forall_app in Hval as [Hval' Hf'].
  eexists f, _. split_and!; [exact Ha| |exact Hset|done|done|done].
  by inversion Hf'.
Qed.

(** C7.  From a pool with exactly four free frames, four allocations in a
    row succeed and return those four frames, the fifth returns the
    sentinel; after that the release of any one of the four succeeds, leaves
    a free set with that frame alone, and the next allocation returns it. *)
Theorem exhaustion_scenario c :
  pool_wf c → free_valid c → num_frames c = 4 →
  ∃ f1 f2 f3 f4 c5,
    alloc5 c = Ok ([f1; f2; f3; f4; INVALID_FRAME], c5) ∧
    Forall (λ f, f ≠ INVALID_FRAME) [f1; f2; f3; f4] ∧
    free_set c = [f4; f3; f2; f1] ∧
    free_set c5 = [] ∧
    ∀ g, g ∈ [f1; f2; f3; f4] →
      ∃ c6 c7, client_free_frame c5 g = Ok c6 ∧ free_set c6 = [g] ∧
        client_alloc_frame c6 = Ok (g, c7) ∧ g ≠ INVALID_FRAME.
Proof.
  intros Hwf Hval H4.
  destruct (alloc_valid_step c) as (f1 & c1 & A1 & V1 & S1 & N1 & W1 & L1); [done|done|lia|].
  destruct (alloc_valid_step c1) as (f2 & c2 & A2 & V2 & S2 & N2 & W2 & L2); [done|done|lia|].
  destruct (alloc_valid_step c2) as (f3 & c3 & A3 & V3 & S3 & N3 & W3 & L3); [done|done|lia|].
  destruct (alloc_valid_step c3) as (f4 & c4 & A4 & V4 & S4 & N4 & W4 & L4); [done|done|lia|].
  assert (Hz : num_frames c4 = 0) by lia.
  pose proof (free_set_empty c4 Hz) as E4.
  exists f1, f2, f3, f4, c4.
  split_and!.
  - unfold alloc5. simpl. rewrite A1. simpl. rewrite A2. simpl. rewrite A3. simpl.
    rewrite A4. simpl. rewrite (alloc_empty c4) by done. done.
  - by repeat constructor.
  - rewrite S1, S2, S3, S4, E4. done.
  - done.
  - intros g Hg.
    destruct (free_then_alloc c4 g) as (c6 & c7 & F & A & _); [done|unfold NUM_FRAMES; lia|].
    exists c6, c7. split_and!; [done| |done|].
    + rewrite (free_free_set c4 g c6) by done. by rewrite E4.
    + rewrite !elem_of_cons in Hg.
      destruct Hg as [->|[->|[->|[->|Hg]]]]; try done. by apply elem_of_nil in Hg.
Qed.

Lemma exhaustion_scenario_witness :
  ∃ f1 f2 f3 f4 c5,
    alloc5 client_four = Ok ([f1; f2; f3; f4; INVALID_FRAME], c5) ∧
    Forall (λ f, f ≠ INVALID_FRAME) [f1; f2; f3; f4] ∧
    free_set client_four = [f4; f3; f2; f1] ∧
    free_set c5 = [] ∧
    ∀ g, g ∈ [f1; f2; f3; f4] →
      ∃ c6 c7, client_free_frame c5 g = Ok c6 ∧ free_set c6 = [g] ∧
        client_alloc_frame c6 = Ok (g, c7) ∧ g ≠ INVALID_FRAME.
Proof.
  apply (exhaustion_scenario client_four).
  - exact client_four_wf.
  - exact client_four_valid.
  - reflexivity.
Defined.

(** The frames of [client_four] come out last in, first out. *)
Example alloc5_client_four :
  fst <$> (match alloc5 client_four with Ok r => Some r | _ => None end)
  = Some [12288; 8192; 4096; 0; INVALID_FRAME].
Proof. by vm_compute. Qed.

(** ** C1: releasing a frame twice *)

(** [client_one] is the pool after [client_init], 4096 allocations and the
    release of frame [0]. *)
Lemma client_one_reachable :
  run (replicate 4096 Alloc ++ [Free 0]) client_ready =
    Ok (reverse (all_frames 4096), client_one).
Proof. vm_compute. reflexivity. Qed.

(** C1, counterexample.  Frame [0] is in the free set of [client_one], and
    its release is not rejected: the call returns, the free set holds the
    frame twice and has grown by one. *)
Lemma double_release_not_detected :
  0 ∈ free_set client_one ∧
  client_free_frame client_one 0 ≠ AssertFail ∧
  ∃ c', client_free_frame client_one 0 = Ok c' ∧
    free_set c' = [0; 0] ∧
    length (free_set c') = S (length (free_set client_one)).
Proof.
  split_and!.
  - vm_compute free_set. set_solver.
  - rewrite free_room by (exact client_one_wf || by vm_compute). discriminate.
  - eexists. split; [apply free_room; (exact client_one_wf || by vm_compute)|].
    split; by vm_compute.
Qed.

(** In the pool that [client_init] leaves, which is full, the release of a
    frame of the free set stops on the assertion. *)
Example double_release_full_pool :
  0 ∈ free_set client_ready ∧ client_free_frame client_ready 0 = AssertFail.
Proof.
  split; [|by apply free_full].
  apply list_elem_of_lookup. exists 0%nat. by vm_compute.
Qed.

(** C1, amended.  The release of a frame that is already in the free set
    stops the process on the failed assertion exactly when the pool is full;
    in a pool that is not full it returns and appends the frame a second
    time. *)
Theorem double_release_outcome c f :
  pool_wf c → f ∈ free_set c →
  (num_frames c = NUM_FRAMES → client_free_frame c f = AssertFail) ∧
  (num_frames c < NUM_FRAMES →
   ∃ c', client_free_frame c f = Ok c' ∧ free_set c' = free_set c ++ [f] ∧
     length (free_set c') = S (length (free_set c))).
Proof.
  intros Hwf Hin. split.
  - intros Hfull. apply free_full. lia.
  - intros Hlt. eexists. split; [by apply free_room|].
    rewrite free_set_after_free by done. split; [done|].
    rewrite length_app. simpl. lia.
Qed.

Lemma double_release_outcome_witness :
  (num_frames client_one = NUM_FRAMES → client_free_frame client_one 0 = AssertFail) ∧
  (num_frames client_one < NUM_FRAMES →
   ∃ c', client_free_frame client_one 0 = Ok c' ∧
     free_set c' = free_set client_one ++ [0] ∧
     length (free_set c') = S (length (free_set client_one))).
Proof.
  apply (double_release_outcome client_one 0).
  - exact client_one_wf.
  - vm_compute free_set. set_solver.
Defined.

(** ** Rings *)

Lemma ring_contents_length r : length (ring_contents r) = Z.to_nat (ring_avail r).
Proof. unfold ring_contents. by rewrite length_fmap, length_seq. Qed.

Lemma ring_slot_lookup r i :
  ring_wf r → ∃ x, ring_slots r !! Z.to_nat (i mod ring_size r) = Some x.
Proof.
  intros (Hpos & _ & Hlen & _).
  apply lookup_lt_is_Some_2. rewrite Hlen.
  pose proof (Z.mod_pos_bound i (ring_size r) Hpos). lia.
Qed.

Lemma u32_mod_ring r z :
  ring_wf r → u32 z mod ring_size r = z mod ring_size r.
Proof. intros (_ & Hdiv & _). unfold u32. by apply Z.mod_mod_divide. Qed.

Lemma u32_succ z : u32 (u32 z + 1) = u32 (z + 1).
Proof. unfold u32. apply Zplus_mod_idemp_l. Qed.

(** Reading at the [j]-th index after the consumer index gives the [j]-th
    descriptor of the ring. *)
Lemma comp_addr_contents r (j : nat) :
  ring_wf r → (j < Z.to_nat (ring_avail r))%nat →
  ∃ x, ring_contents r !! j = Some x ∧
       xsk_ring_cons__comp_addr r (u32 (ring_consumer r + Z.of_nat j)) = Ok x.
Proof.
  intros Hwf Hj.
  destruct (ring_slot_lookup r (ring_consumer r + Z.of_nat j) Hwf) as [x Hx].
  exists x. split.
  - unfold ring_contents. rewrite list_lookup_fmap, lookup_seq_lt by done.
    simpl. by rewrite Hx.
  - unfold xsk_ring_cons__comp_addr, array_get.
    by rewrite u32_mod_ring, Hx by done.
Qed.

Lemma ring_contents_release r k :
  0 ≤ k ≤ ring_avail r →
  ring_contents (xsk_ring_cons__release r k) = drop (Z.to_nat k) (ring_contents r).
Proof.
  intros Hk. unfold ring_contents, xsk_ring_cons__release, ring_avail. simpl.
  rewrite <- fmap_drop, drop_seq. simpl.
  replace (Z.to_nat (ring_producer r - (ring_consumer r + k)))
    with (Z.to_nat (ring_producer r - ring_consumer r) - Z.to_nat k)%nat
    by (unfold ring_avail in Hk; lia).
  replace (seq (Z.to_nat k)) with (seq (Z.to_nat k + 0)) by (f_equal; lia).
  rewrite <- (fmap_add_seq (Z.to_nat k) 0), <- list_fmap_compose.
  apply list_fmap_ext. intros _ j _. simpl.
  replace (ring_consumer r + Z.of_nat (Z.to_nat k + j))
    with (ring_consumer r + k + Z.of_nat j) by lia.
  done.
Qed.

Lemma ring_wf_release r k :
  ring_wf r → 0 ≤ k ≤ ring_avail r → ring_wf (xsk_ring_cons__release r k).
Proof.
  intros (Hpos & Hdiv & Hlen & Hav) Hk.
  unfold ring_wf, ring_avail in *. simpl. split_and!; (done || lia).
Qed.

(** ** The reclaim loop *)

Lemma free_completed_spec n : ∀ c (j : nat) tr,
  pool_wf c → ring_wf (complete_queue c) →
  (j + n ≤ Z.to_nat (ring_avail (complete_queue c)))%nat →
  num_frames c + Z.of_nat n ≤ NUM_FRAMES →
  ∃ c', free_completed n c (u32 (ring_consumer (complete_queue c) + Z.of_nat j)) tr =
          Ok (c', tr ++ reclaim_events
                          (u32 (ring_consumer (complete_queue c) + Z.of_nat j))
                          (take n (drop j (ring_contents (complete_queue c))))) ∧
        free_set c' = free_set c ++ take n (drop j (ring_contents (complete_queue c))) ∧
        pool_wf c' ∧
        complete_queue c' = complete_queue c ∧ fill_queue c' = fill_queue c ∧
        receive_queue c' = receive_queue c ∧ send_queue c' = send_queue c.
Proof.
  induction n as [|n IH]; intros c j tr Hwf Hr Hj Hroom.
  - exists c. simpl. rewrite take_0, !app_nil_r. by split_and!.
  - destruct (comp_addr_contents (complete_queue c) j Hr) as (x & Hx & Hread); [lia|].
    pose proof (free_room c x Hwf ltac:(lia)) as Hfree.
    pose proof (free_wf _ _ _ Hwf Hfree) as Hwf1.
    pose proof (free_set_after_free c x Hwf ltac:(lia)) as Hset.
    set (c1 := set_pool c (<[Z.to_nat (num_frames c) := x]> (frames c)) (num_frames c + 1)) in *.
    destruct (IH c1 (S j) (tr ++ [EvRead Completion
                 (u32 (ring_consumer (complete_queue c) + Z.of_nat j)) x; EvPoolFree x]))
      as (c' & Hrun & Hfs & Hwf' & Hq & Hfq & Hrq & Hsq);
      [done|done|simpl; lia|simpl; lia|].
    exists c'. simpl in Hrun, Hfs, Hq, Hfq, Hrq, Hsq.
    rewrite (drop_S _ x j) by done. rewrite firstn_cons.
    split_and!; [|by rewrite Hfs, Hset, <- app_assoc|done..].
    cbn [free_completed]. rewrite Hread. simpl. rewrite Hfree. simpl.
    rewrite u32_succ.
    replace (ring_consumer (complete_queue c) + Z.of_nat j + 1)
      with (ring_consumer (complete_queue c) + Z.of_nat (S j)) by lia.
    rewrite Hrun. cbn [reclaim_events]. by rewrite <- app_assoc.
Qed.

(** Without room for all of them the loop ends on the assertion of
    [client_free_frame]. *)
Lemma free_completed_abort n : ∀ c (j : nat) tr,
  pool_wf c → ring_wf (complete_queue c) →
  (j + n ≤ Z.to_nat (ring_avail (complete_queue c)))%nat →
  NUM_FRAMES < num_frames c + Z.of_nat n →
  free_completed n c (u32 (ring_consumer (complete_queue c) + Z.of_nat j)) tr = AssertFail.
Proof.
  induction n as [|n IH]; intros c j tr Hwf Hr Hj Hover.
  - destruct Hwf as [_ Hn]. lia.
  - destruct (comp_addr_contents (complete_queue c) j Hr) as (x & _ & Hread); [lia|].
    cbn [free_completed]. rewrite Hread. simpl.
    destruct (Z.lt_ge_cases (num_frames c) NUM_FRAMES) as [Hlt|Hge].
    + pose proof (free_room c x Hwf Hlt) as Hfree. rewrite Hfree. simpl.
      rewrite u32_succ.
      replace (ring_consumer (complete_queue c) + Z.of_nat j + 1)
        with (ring_consumer (complete_queue c) + Z.of_nat (S j)) by lia.
      apply (IH (set_pool c _ _) (S j)); [by eapply free_wf|done|simpl; lia|simpl; lia].
    + by rewrite free_full.
Qed.

(** ** What one polling step does *)

(** The step needs room in the pool for the descriptors it peeks, not for
    the whole ring. *)
Lemma client_update_room ND c :
  pool_wf c → ring_wf (complete_queue c) →
  num_frames c + Z.min ND (ring_avail (complete_queue c)) ≤ NUM_FRAMES →
  let k := Z.min ND (ring_avail (complete_queue c)) in
  let reclaimed := take (Z.to_nat k) (ring_contents (complete_queue c)) in
  ∃ c', client_update ND c =
          Ok (c', [EvWakeup; EvPeek Completion ND k] ++
                  reclaim_events (u32 (ring_consumer (complete_queue c))) reclaimed ++
                  (if 0 <? k then [EvRelease Completion k] else [])) ∧
        free_set c' = free_set c ++ reclaimed ∧
        ring_contents (complete_queue c') =
          drop (Z.to_nat k) (ring_contents (complete_queue c)) ∧
        pool_wf c' ∧ ring_wf (complete_queue c') ∧
        fill_queue c' = fill_queue c ∧ receive_queue c' = receive_queue c ∧
        send_queue c' = send_queue c.
Proof.
  intros Hwf Hr Hroom k reclaimed.
  pose proof Hr as (_ & _ & _ & Hav).
  unfold client_update, xsk_ring_cons__peek. fold k. fold k in Hroom.
  destruct (Z.ltb_spec 0 k) as [Hk|Hk].
  - destruct (free_completed_spec (Z.to_nat k) c 0 [EvWakeup; EvPeek Completion ND k])
      as (c' & Hrun & Hfs & Hwf' & Hq & Hfq & Hrq & Hsq); [done|done|lia|lia|].
    simpl Z.of_nat in Hrun. rewrite Z.add_0_r, drop_0 in Hrun.
    rewrite drop_0 in Hfs.
    exists (set_complete_queue c' (xsk_ring_cons__release (complete_queue c') k)).
    simpl app. rewrite Hrun. simpl.
    split_and!; [done|done| | | |done..].
    + rewrite Hq. apply ring_contents_release. lia.
    + by destruct Hwf'.
    + rewrite Hq. apply ring_wf_release; [done|lia].
  - exists c. subst reclaimed.
    replace (Z.to_nat k) with 0%nat by lia. rewrite take_0, drop_0, app_nil_r.
    simpl. split_and!; [done|by rewrite app_nil_r|done..].
Qed.

Lemma client_update_spec ND c :
  pool_wf c → ring_wf (complete_queue c) →
  num_frames c + ring_avail (complete_queue c) ≤ NUM_FRAMES →
  let k := Z.min ND (ring_avail (complete_queue c)) in
  let reclaimed := take (Z.to_nat k) (ring_contents (complete_queue c)) in
  ∃ c', client_update ND c =
          Ok (c', [EvWakeup; EvPeek Completion ND k] ++
                  reclaim_events (u32 (ring_consumer (complete_queue c))) reclaimed ++
                  (if 0 <? k then [EvRelease Completion k] else [])) ∧
        free_set c' = free_set c ++ reclaimed ∧
        ring_contents (complete_queue c') =
          drop (Z.to_nat k) (ring_contents (complete_queue c)) ∧
        pool_wf c' ∧ ring_wf (complete_queue c') ∧
        fill_queue c' = fill_queue c ∧ receive_queue c' = receive_queue c ∧
        send_queue c' = send_queue c.
Proof. intros Hwf Hr Hroom. apply client_update_room; [done|done|lia]. Qed.

(** ** C3: the order of a polling step *)

Lemma client_completed_wf : pool_wf client_completed.
Proof. split; [by vm_compute|]. unfold NUM_FRAMES. simpl. lia. Qed.

Lemma client_completed_ring_wf : ring_wf (complete_queue client_completed).
Proof.
  unfold ring_wf, ring_avail. simpl. split_and!; [lia|by exists (2 ^ 21)|done|lia|lia].
Qed.

(** C3, counterexample.  With one frame in the Completion ring, room in the
    Fill ring and frames in the pool, the step wakes the kernel up before it
    touches the Completion ring, so its events are not in the order
    completion, receive, transmit and wake-up, fill; and it leaves the Fill
    ring empty although the pool is not. *)
Lemma client_update_not_in_spec_order :
  client_update 2048 client_completed =
    Ok (client_reclaimed,
        [EvWakeup; EvPeek Completion 2048 1;
         EvRead Completion 0 (4095 * 4096); EvPoolFree (4095 * 4096);
         EvRelease Completion 1]) ∧
  ¬ phases_in_order [EvWakeup; EvPeek Completion 2048 1;
                     EvRead Completion 0 (4095 * 4096); EvPoolFree (4095 * 4096);
                     EvRelease Completion 1] ∧
  ring_avail (fill_queue client_reclaimed) = 0 ∧
  ring_size (fill_queue client_reclaimed) = 2048 ∧
  num_frames client_reclaimed = 4096 ∧
  ¬ fill_replenished client_reclaimed.
Proof.
  split; [vm_compute; reflexivity|].
  split; [by vm_compute|].
  split_and!; [done..|].
  unfold fill_replenished. simpl. unfold ring_avail. simpl. lia.
Qed.

Lemma reclaim_events_on_completion idx addrs :
  Forall on_completion (reclaim_events idx addrs).
Proof.
  revert idx. induction addrs as [|a addrs IH]; intros idx; simpl; [done|].
  apply Forall_cons. split; [by left|].
  apply Forall_cons. split; [by right|]. apply IH.
Qed.

(** C3, amended.  In a well-formed state with room in the pool for the
    descriptors that the peek returns, [num_frames] plus the smaller of
    [NUM_DESCS] and the number of filled slots being at most [NUM_FRAMES],
    one step first wakes the kernel up, then peeks at the Completion ring
    for at most [NUM_DESCS] descriptors, then reads each of them in ring
    order and releases its frame to the pool, then releases the slots it
    read.  Everything after the wake-up is a call on the Completion ring or
    of the pool, and the Receive, Transmit and Fill rings are left as they
    were.  Without that room the step does not get to its end: it stops on
    the failed assertion of [client_free_frame]. *)
Theorem client_update_order ND c :
  pool_wf c → ring_wf (complete_queue c) →
  let k := Z.min ND (ring_avail (complete_queue c)) in
  let reclaimed := take (Z.to_nat k) (ring_contents (complete_queue c)) in
  (num_frames c + k ≤ NUM_FRAMES →
   ∃ c' tr, client_update ND c = Ok (c', EvWakeup :: tr) ∧
        tr = EvPeek Completion ND k ::
             reclaim_events (u32 (ring_consumer (complete_queue c))) reclaimed ++
             (if 0 <? k then [EvRelease Completion k] else []) ∧
        Forall on_completion tr ∧
        free_set c' = free_set c ++ reclaimed ∧
        ring_contents (complete_queue c') =
          drop (Z.to_nat k) (ring_contents (complete_queue c)) ∧
        fill_queue c' = fill_queue c ∧ receive_queue c' = receive_queue c ∧
        send_queue c' = send_queue c) ∧
  (NUM_FRAMES < num_frames c + k → client_update ND c = AssertFail).
Proof.
  intros Hwf Hr k reclaimed. split.
  - intros Hroom.
    destruct (client_update_room ND c Hwf Hr Hroom)
      as (c' & Hrun & Hfs & Hq & _ & _ & Hfq & Hrq & Hsq).
    eexists c', _. split; [exact Hrun|].
    split; [done|].
    split; [|by split_and!].
    apply Forall_cons. split; [by left|].
    apply Forall_app. split; [apply reclaim_events_on_completion|].
    destruct (0 <? Z.min ND (ring_avail (complete_queue c))); [|done].
    apply Forall_cons. split; [by left|done].
  - intros Hover. pose proof Hwf as [_ Hn]. pose proof Hr as (_ & _ & _ & Hav).
    unfold client_update, xsk_ring_cons__peek. fold k.
    destruct (Z.ltb_spec 0 k) as [Hk|Hk]; [|lia].
    pose proof (free_completed_abort (Z.to_nat k) c 0 [EvWakeup; EvPeek Completion ND k]
                  Hwf Hr ltac:(lia) ltac:(lia)) as Habort.
    simpl Z.of_nat in Habort. rewrite Z.add_0_r in Habort.
    simpl app. by rewrite Habort.
Qed.

Lemma client_update_order_witness :
  let k := Z.min 2048 (ring_avail (complete_queue client_completed)) in
  let reclaimed := take (Z.to_nat k) (ring_contents (complete_queue client_completed)) in
  ∃ c' tr, client_update 2048 client_completed = Ok (c', EvWakeup :: tr) ∧
        tr = EvPeek Completion 2048 k ::
             reclaim_events (u32 (ring_consumer (complete_queue client_completed)))
               reclaimed ++
             (if 0 <? k then [EvRelease Completion k] else []) ∧
        Forall on_completion tr ∧
        free_set c' = free_set client_completed ++ reclaimed ∧
        ring_contents (complete_queue c') =
          drop (Z.to_nat k) (ring_contents (complete_queue client_completed)) ∧
        fill_queue c' = fill_queue client_completed ∧
        receive_queue c' = receive_queue client_completed ∧
        send_queue c' = send_queue client_completed.
Proof.
  apply (client_update_order 2048 client_completed).
  - exact client_completed_wf.
  - exact client_completed_ring_wf.
  - by vm_compute.
Defined.

(** ** Frames handed back by a caller *)

Lemma remove_first_sublist f l : remove_first f l `sublist_of` l.
Proof.
  induction l as [|x l IH]; simpl; [done|].
  case_decide; [by apply sublist_cons|by apply sublist_skip].
Qed.

Lemma remove_first_Permutation f l : f ∈ l → l ≡ₚ f :: remove_first f l.
Proof.
  induction l as [|x l IH]; intros Hin; [by apply elem_of_nil in Hin|].
  simpl. case_decide as Hx; [by subst|].
  apply elem_of_cons in Hin as [->|Hin]; [done|].
  rewrite (IH Hin) at 1. apply Permutation_swap.
Qed.

Lemma remove_first_NoDup f l : NoDup l → f ∉ remove_first f l.
Proof.
  induction l as [|x l IH]; intros Hnd; simpl; [apply not_elem_of_nil|].
  apply NoDup_cons in Hnd as [Hx Hl].
  case_decide as Hxf; [by subst|].
  apply not_elem_of_cons. split; [done|by apply IH].
Qed.

(** ** C10: the assertion of [client_free_frame] *)

Lemma bounded_step s s' :
  bounded s → pool_step no_over_release s s' → bounded s'.
Proof.
  intros [Hwf Hb] Hstep. destruct Hstep as [s f c' Ha|s f c' Hg Hf].
  - pose proof (alloc_wf _ _ _ Hwf Ha) as Hwf'.
    unfold after_alloc. destruct (alloc_Ok_inv _ _ _ Hwf Ha) as [(Hz & -> & ->)|(Hpos & _ & ->)].
    + by rewrite decide_True.
    + case_decide; (split; [done|simpl; lia]).
  - pose proof (free_wf _ _ _ Hwf Hf) as Hwf'.
    destruct (free_Ok_inv _ _ _ Hwf Hf) as [Hlt ->].
    split; [done|simpl; lia].
Qed.

Lemma bounded_reachable c0 s :
  pool_wf c0 → rtc (pool_step no_over_release) (start c0) s → bounded s.
Proof.
  intros Hwf Hreach. by_reachability bounded_step.
  split; [done|]. destruct Hwf. simpl. lia.
Qed.

Lemma client_four_alloc : client_alloc_frame client_four = Ok (12288, client_three).
Proof. vm_compute. reflexivity. Qed.

(** C10.  Start from a well-formed pool and let the callers allocate and
    release any frames, as long as each release comes after more successful
    allocations than releases.  Then in every state that is reached
    [num_frames] is at most [NUM_FRAMES], a release that the callers may make
    passes the assertion and returns, and an allocation returns too. *)
Theorem free_assert_never_fails c0 s :
  pool_wf c0 →
  rtc (pool_step no_over_release) (start c0) s →
  num_frames (cl s) ≤ NUM_FRAMES ∧
  (∀ f, no_over_release s f → ∃ c', client_free_frame (cl s) f = Ok c') ∧
  (∃ f c', client_alloc_frame (cl s) = Ok (f, c')).
Proof.
  intros Hwf Hreach.
  destruct (bounded_reachable c0 s Hwf Hreach) as [Hwfs Hb].
  split_and!.
  - by destruct Hwfs as [_ [_ ?]].
  - intros f Hg. unfold no_over_release in Hg.
    eexists. apply free_room; [done|lia].
  - destruct (Z.eq_dec (num_frames (cl s)) 0) as [Hz|Hnz].
    + eexists _, _. by apply alloc_empty.
    + destruct (alloc_nonempty (cl s) Hwfs) as (f & _ & Ha); [destruct Hwfs; lia|].
      by eexists _, _.
Qed.

Lemma free_assert_never_fails_witness :
  num_frames (cl sys_three) ≤ NUM_FRAMES ∧
  (∀ f, no_over_release sys_three f → ∃ c', client_free_frame (cl sys_three) f = Ok c') ∧
  (∃ f c', client_alloc_frame (cl sys_three) = Ok (f, c')).
Proof.
  apply (free_assert_never_fails client_four sys_three).
  - exact client_four_wf.
  - apply rtc_once. apply step_alloc. exact client_four_alloc.
Defined.

(** ** C6: no frame is allocated twice *)

Lemma distinct_step s s' :
  distinct s → pool_step no_double_release s s' → distinct s'.
Proof.
  intros [Hwf Hnd] Hstep. destruct Hstep as [s f c' Ha|s f c' Hg Hf].
  - pose proof (alloc_wf _ _ _ Hwf Ha) as Hwf'.
    unfold after_alloc.
    destruct (alloc_free_set _ _ _ Hwf Ha) as [(Hz & -> & ->)|(Hpos & Hset)].
    + by rewrite decide_True.
    + rewrite Hset in Hnd.
      assert (Hperm : (free_set c' ++ [f]) ++ live s ≡ₚ f :: free_set c' ++ live s)
        by solve_Permutation.
      rewrite Hperm in Hnd. apply NoDup_cons in Hnd as [Hf Hrest].
      case_decide; (split; [done|]); simpl; [done|].
      rewrite <- Permutation_middle. by apply NoDup_cons.
  - pose proof (free_wf _ _ _ Hwf Hf) as Hwf'.
    split; [done|]. simpl. rewrite (free_free_set _ _ _ Hwf Hf).
    unfold no_double_release in Hg.
    apply NoDup_app in Hnd as (Hfree & Hdisj & Hlive).
    rewrite <- app_assoc. simpl. apply NoDup_app. split_and!.
    + done.
    + intros x Hx. apply not_elem_of_cons. split; [by intros ->|].
      intros Hin. apply (Hdisj x Hx).
      eapply elem_of_sublist; [exact Hin|apply remove_first_sublist].
    + apply NoDup_cons. split; [by apply remove_first_NoDup|].
      eapply sublist_NoDup; [done|apply remove_first_sublist].
Qed.

Lemma distinct_reachable c0 s :
  pool_wf c0 → NoDup (free_set c0) →
  rtc (pool_step no_double_release) (start c0) s → distinct s.
Proof.
  intros Hwf Hnd Hreach. by_reachability distinct_step.
  split; [done|]. simpl. by rewrite app_nil_r.
Qed.

(** C6.  Start from a well-formed pool whose free set has no duplicate and
    let the callers allocate, and release any frame that is not in the free
    set at that moment.  Then the frames that were allocated and not released
    since are pairwise distinct, and an allocation never returns a frame
    that a caller still holds. *)
Theorem no_double_allocation c0 s :
  pool_wf c0 → NoDup (free_set c0) →
  rtc (pool_step no_double_release) (start c0) s →
  NoDup (live s) ∧
  (∀ f c', client_alloc_frame (cl s) = Ok (f, c') → f ≠ INVALID_FRAME → f ∉ live s).
Proof.
  intros Hwf Hnd Hreach.
  destruct (distinct_reachable c0 s Hwf Hnd Hreach) as [Hwfs Hd].
  apply NoDup_app in Hd as (Hfree & Hdisj & Hlive).
  split; [done|].
  intros f c' Ha Hvalid. apply Hdisj.
  destruct (alloc_free_set _ _ _ Hwfs Ha) as [(_ & -> & _)|(_ & Hset)]; [done|].
  rewrite Hset. apply elem_of_app. right. apply list_elem_of_singleton. done.
Qed.

Lemma client_four_NoDup : NoDup (free_set client_four).
Proof.
  vm_compute free_set.
  repeat (apply NoDup_cons; split; [rewrite ?elem_of_cons, elem_of_nil; intros H; by repeat destruct H as [H|H]|]).
  apply NoDup_nil_2.
Qed.

Lemma no_double_allocation_witness :
  NoDup (live sys_three) ∧
  (∀ f c', client_alloc_frame (cl sys_three) = Ok (f, c') →
           f ≠ INVALID_FRAME → f ∉ live sys_three).
Proof.
  apply (no_double_allocation client_four sys_three).
  - exact client_four_wf.
  - exact client_four_NoDup.
  - apply rtc_once. apply step_alloc. exact client_four_alloc.
Defined.

(** ** The frames that [client_init] makes *)

Lemma init_frames_spec FS n : ∀ i pre rest,
  0 ≤ i → 0 ≤ FS → (i + Z.of_nat n) * FS ≤ 2 ^ 64 →
  length pre = Z.to_nat i → length rest = n →
  init_frames FS n i (pre ++ rest) =
    Ok (pre ++ ((λ j, j * FS) <$> seqZ i (Z.of_nat n))).
Proof.
  induction n as [|n IH]; intros i pre rest Hi HFS Hb Hpre Hrest.
  - destruct rest; [|done]. done.
  - destruct rest as [|x rest]; [done|]. injection Hrest as Hrest.
    cbn [init_frames].
    rewrite array_set_lt by (rewrite length_app; simpl; lia).
    rewrite insert_app_r_alt by lia.
    replace (Z.to_nat i - length pre)%nat with 0%nat by lia.
    cbn [mbind outcome_mbind outcome_bind].
    assert (Hsmall : u64 (i * FS) = i * FS).
    { unfold u64. apply Z.mod_small. nia. }
    rewrite Hsmall. simpl.
    rewrite (cons_middle (i * FS) pre rest), app_assoc.
    rewrite IH; [|lia|lia|nia|rewrite length_app; simpl; lia|done].
    rewrite (seqZ_cons i (Z.of_nat (S n))) by lia.
    rewrite fmap_cons, <- app_assoc. simpl.
    replace (Z.succ i) with (i + 1) by lia.
    replace (Z.pred (Z.of_nat (S n))) with (Z.of_nat n) by lia.
    done.
Qed.

Lemma all_frames_length FS : length (all_frames FS) = Z.to_nat NUM_FRAMES.
Proof. unfold all_frames. by rewrite length_fmap, length_seqZ. Qed.

Lemma all_frames_elem FS f :
  f ∈ all_frames FS ↔ ∃ i, 0 ≤ i < NUM_FRAMES ∧ f = i * FS.
Proof.
  unfold all_frames. rewrite list_elem_of_fmap. split.
  - intros (i & -> & Hi). apply elem_of_seqZ in Hi. exists i. split; [lia|done].
  - intros (i & Hi & ->). exists i. split; [done|]. apply elem_of_seqZ. lia.
Qed.

Lemma all_frames_aligned FS : Forall (aligned FS) (all_frames FS).
Proof.
  apply Forall_forall. intros f (i & _ & ->)%all_frames_elem.
  by exists i.
Qed.

Lemma all_frames_NoDup FS : FS ≠ 0 → NoDup (all_frames FS).
Proof.
  intros Hnz. unfold all_frames. apply NoDup_fmap_2_strong; [|apply NoDup_seqZ].
  intros x y _ _ Heq. by apply Z.mul_cancel_r in Heq.
Qed.

Lemma free_set_full c :
  pool_wf c → num_frames c = NUM_FRAMES → free_set c = frames c.
Proof.
  intros [Hlen _] Hn. unfold free_set. rewrite Hn, <- Hlen. apply take_ge. lia.
Qed.

(** The allocator leaves the rings alone. *)
Lemma alloc_rings c f c' :
  pool_wf c → client_alloc_frame c = Ok (f, c') →
  ring_frames c' = ring_frames c ∧ complete_queue c' = complete_queue c.
Proof.
  intros Hwf Ha.
  by destruct (alloc_Ok_inv _ _ _ Hwf Ha) as [(_ & _ & ->)|(_ & _ & ->)].
Qed.

Lemma free_rings c f c' :
  pool_wf c → client_free_frame c f = Ok c' →
  ring_frames c' = ring_frames c ∧ complete_queue c' = complete_queue c.
Proof. intros Hwf Hf. by destruct (free_Ok_inv _ _ _ Hwf Hf) as [_ ->]. Qed.

(** ** Properties for a given frame size *)

Section frame_size.

Variable FS : Z.
Hypothesis FS_ok : frame_size_ok FS.

Lemma client_init_frames_spec c :
  length (frames c) = Z.to_nat NUM_FRAMES →
  client_init_frames FS c = Ok (set_pool c (all_frames FS) NUM_FRAMES).
Proof.
  intros Hlen. destruct FS_ok as [Hpos Hfit]. unfold client_init_frames.
  assert (Hnat : Z.of_nat (Z.to_nat NUM_FRAMES) = NUM_FRAMES) by by apply Z2Nat.id.
  rewrite <- (app_nil_l (frames c)).
  rewrite init_frames_spec; [|lia|lia| |done|done].
  - rewrite Hnat. done.
  - rewrite Hnat. unfold INT_MAX in Hfit. lia.
Qed.

Lemma all_frames_valid f :
  f ∈ all_frames FS → f ≠ INVALID_FRAME.
Proof.
  intros (i & Hi & ->)%all_frames_elem. destruct FS_ok as [Hpos Hfit].
  unfold INVALID_FRAME, UINT64_MAX. unfold INT_MAX in Hfit. nia.
Qed.

(** *** C8: alignment *)

Lemma all_aligned_step s s' :
  all_aligned FS s → pool_step release_live s s' → all_aligned FS s'.
Proof.
  intros [Hwf Hal] Hstep. destruct Hstep as [s f c' Ha|s f c' Hg Hf].
  - pose proof (alloc_wf _ _ _ Hwf Ha) as Hwf'.
    unfold after_alloc.
    destruct (alloc_free_set _ _ _ Hwf Ha) as [(Hz & -> & ->)|(Hpos & Hset)].
    + by rewrite decide_True.
    + rewrite Hset in Hal.
      assert (Hperm : (free_set c' ++ [f]) ++ live s ≡ₚ f :: free_set c' ++ live s)
        by solve_Permutation.
      rewrite Hperm in Hal. apply Forall_cons in Hal as [Hf Hrest].
      case_decide; (split; [done|]); simpl; [done|].
      rewrite <- Permutation_middle. by apply Forall_cons.
  - pose proof (free_wf _ _ _ Hwf Hf) as Hwf'.
    split; [done|]. simpl. rewrite (free_free_set _ _ _ Hwf Hf).
    unfold release_live in Hg.
    apply Forall_app in Hal as [Hfree Hlive].
    rewrite <- app_assoc. simpl. apply Forall_app. split; [done|].
    apply Forall_cons. split.
    + rewrite Forall_forall in Hlive. by apply Hlive.
    + apply Forall_forall. intros x Hx. rewrite Forall_forall in Hlive. apply Hlive.
      eapply elem_of_sublist; [exact Hx|apply remove_first_sublist].
Qed.

Lemma all_aligned_reachable c0 s :
  pool_wf c0 → Forall (aligned FS) (free_set c0) →
  rtc (pool_step release_live) (start c0) s → all_aligned FS s.
Proof.
  intros Hwf Hal Hreach. by_reachability all_aligned_step.
  split; [done|]. simpl. by rewrite app_nil_r.
Qed.

(** C8.  [client_init] fills the array so that [frames[i] = i * FRAME_SIZE]
    and the free set is the whole array; from there, however the callers
    allocate frames and release frames they hold, every offset in the free
    set is a multiple of [FRAME_SIZE]. *)
Theorem free_set_aligned c :
  length (frames c) = Z.to_nat NUM_FRAMES →
  ∃ c0, client_init_frames FS c = Ok c0 ∧
    (∀ i, 0 ≤ i < NUM_FRAMES → frames c0 !! Z.to_nat i = Some (i * FS)) ∧
    num_frames c0 = NUM_FRAMES ∧
    Forall (aligned FS) (free_set c0) ∧
    ∀ s, rtc (pool_step release_live) (start c0) s →
         Forall (aligned FS) (free_set (cl s)).
Proof.
  intros Hlen.
  exists (set_pool c (all_frames FS) NUM_FRAMES).
  assert (Hwf0 : pool_wf (set_pool c (all_frames FS) NUM_FRAMES)).
  { apply pool_wf_set_pool; [apply all_frames_length|unfold NUM_FRAMES; lia]. }
  assert (Hal0 : Forall (aligned FS) (free_set (set_pool c (all_frames FS) NUM_FRAMES))).
  { rewrite free_set_full by done. apply all_frames_aligned. }
  split_and!.
  - by apply client_init_frames_spec.
  - intros i Hi. simpl. unfold all_frames.
    rewrite list_lookup_fmap, lookup_seqZ_lt by lia.
    simpl. do 2 f_equal. lia.
  - done.
  - done.
  - intros s Hreach.
    destruct (all_aligned_reachable _ s Hwf0 Hal0 Hreach) as [_ Hal].
    by apply Forall_app in Hal as [? _].
Qed.

(** *** C2: conservation of frames *)

Lemma conserving_room s :
  conserving FS s →
  num_frames (cl s) + Z.of_nat (length (live s)) + ring_avail (complete_queue (cl s))
    ≤ NUM_FRAMES.
Proof.
  intros (Hwf & Hr & Hc). unfold conserved in Hc.
  apply Permutation_length in Hc.
  rewrite all_frames_length in Hc. unfold ring_frames in Hc.
  rewrite !length_app, free_set_length, !ring_contents_length in Hc by done.
  destruct Hwf as [_ Hn]. destruct Hr as (_ & _ & _ & Hav). lia.
Qed.

Lemma conserving_step ND s s' :
  conserving FS s → io_step release_live ND s s' → conserving FS s'.
Proof.
  intros (Hwf & Hr & Hc) Hstep. unfold conserved in Hc.
  destruct Hstep as [s s' Hpool|s c' tr Hup].
  - destruct Hpool as [s f c' Ha|s f c' Hg Hf].
    + pose proof (alloc_wf _ _ _ Hwf Ha) as Hwf'.
      destruct (alloc_rings _ _ _ Hwf Ha) as [Hrf Hcq].
      unfold after_alloc.
      destruct (alloc_free_set _ _ _ Hwf Ha) as [(Hz & -> & ->)|(Hpos & Hset)].
      { by rewrite decide_True. }
      assert (Hin : f ∈ all_frames FS).
      { rewrite <- Hc, Hset. rewrite !elem_of_app, list_elem_of_singleton. auto. }
      rewrite decide_False by by apply all_frames_valid.
      split_and!; [done|simpl; by rewrite Hcq|].
      unfold conserved. simpl. rewrite Hrf, <- Hc, Hset. solve_Permutation.
    + pose proof (free_wf _ _ _ Hwf Hf) as Hwf'.
      destruct (free_rings _ _ _ Hwf Hf) as [Hrf Hcq].
      split_and!; [done|simpl; by rewrite Hcq|].
      unfold conserved. simpl.
      rewrite Hrf, (free_free_set _ _ _ Hwf Hf), <- Hc.
      rewrite (remove_first_Permutation f (live s)) at 2 by done.
      solve_Permutation.
  - pose proof (conserving_room s (conj Hwf (conj Hr Hc))) as Hroom.
    destruct (client_update_spec ND (cl s) Hwf Hr ltac:(lia))
      as (c1 & Hrun & Hfs & Hq & Hwf1 & Hr1 & Hfq & Hrq & Hsq).
    rewrite Hrun in Hup. injection Hup as <- _.
    split_and!; [done|done|].
    unfold conserved, ring_frames. simpl.
    rewrite Hfs, Hq, Hfq, Hrq, Hsq, <- Hc. unfold ring_frames.
    rewrite <- (take_drop (Z.to_nat (ND `min` ring_avail (complete_queue (cl s))))
                 (ring_contents (complete_queue (cl s)))) at 3.
    solve_Permutation.
Qed.

Lemma conserving_reachable ND s0 s :
  conserving FS s0 →
  rtc (io_step release_live ND) s0 s → conserving FS s.
Proof.
  intros H0 Hreach. by_reachability conserving_step. done.
Qed.

(** After [client_init], with nothing in the rings, every frame is in the
    free set. *)
Lemma conserving_init c :
  ring_wf (complete_queue c) → ring_frames c = [] →
  conserving FS (start (set_pool c (all_frames FS) NUM_FRAMES)).
Proof.
  intros Hr Hempty.
  assert (Hwf0 : pool_wf (set_pool c (all_frames FS) NUM_FRAMES)).
  { apply pool_wf_set_pool; [apply all_frames_length|unfold NUM_FRAMES; lia]. }
  split_and!; [done|done|].
  unfold conserved. rewrite free_set_full by done.
  cbn [cl start live frames set_pool].
  change (ring_frames (set_pool c (all_frames FS) NUM_FRAMES)) with (ring_frames c).
  by rewrite Hempty, !app_nil_r.
Qed.

(** C2, amended.  Start from a state in which every frame is in exactly one
    of the free set, the hands of a caller and the four rings, as after
    [client_init]; let the callers allocate frames and release frames they
    hold, and let the polling step run.  Then in every state that is reached
    every frame is again in exactly one of those places. *)
Theorem frames_conserved ND s0 s :
  conserving FS s0 →
  rtc (io_step release_live ND) s0 s →
  conserved FS s ∧
  NoDup (free_set (cl s) ++ live s ++ ring_frames (cl s)) ∧
  (∀ f, f ∈ (free_set (cl s) ++ live s ++ ring_frames (cl s)) ↔
        ∃ i, 0 ≤ i < NUM_FRAMES ∧ f = i * FS).
Proof.
  intros H0 Hreach.
  destruct (conserving_reachable ND s0 s H0 Hreach) as (_ & _ & Hc).
  split; [done|]. unfold conserved in Hc. split.
  - rewrite Hc. apply all_frames_NoDup. destruct FS_ok. lia.
  - intros f. rewrite Hc. apply all_frames_elem.
Qed.

End frame_size.

(** ** The properties at a frame size of 4096 bytes *)

Lemma frame_size_4096_ok : frame_size_ok 4096.
Proof. unfold frame_size_ok, NUM_FRAMES, INT_MAX. lia. Qed.

Lemma free_set_aligned_witness :
  ∃ c0, client_init_frames 4096 client_fresh = Ok c0 ∧
    (∀ i, 0 ≤ i < NUM_FRAMES → frames c0 !! Z.to_nat i = Some (i * 4096)) ∧
    num_frames c0 = NUM_FRAMES ∧
    Forall (aligned 4096) (free_set c0) ∧
    ∀ s, rtc (pool_step release_live) (start c0) s →
         Forall (aligned 4096) (free_set (cl s)).
Proof.
  apply (free_set_aligned 4096 frame_size_4096_ok client_fresh).
  by vm_compute.
Defined.

(** [client_init] on the fresh client gives [client_ready]. *)
Example client_init_frames_fresh :
  client_init_frames 4096 client_fresh = Ok client_ready.
Proof. apply client_init_frames_spec; [exact frame_size_4096_ok|by vm_compute]. Qed.

(** The pool that [client_init] leaves is well formed and its free set has
    no duplicate. *)
Lemma client_ready_wf : pool_wf client_ready.
Proof. apply pool_wf_set_pool; [apply all_frames_length|unfold NUM_FRAMES; lia]. Qed.

Lemma client_ready_NoDup : NoDup (free_set client_ready).
Proof.
  rewrite free_set_full by (exact client_ready_wf || done).
  by apply all_frames_NoDup.
Qed.

Lemma client_ready_alloc : client_alloc_frame client_ready = Ok (4095 * 4096, client_taken).
Proof. vm_compute. reflexivity. Qed.

Lemma client_taken_free_set :
  free_set client_taken = take 4095 (all_frames 4096).
Proof. vm_compute. reflexivity. Qed.

Lemma last_frame_not_free : 4095 * 4096 ∉ take 4095 (all_frames 4096).
Proof.
  pose proof (all_frames_NoDup 4096 ltac:(done)) as Hnd.
  rewrite <- (take_drop 4095 (all_frames 4096)) in Hnd.
  apply NoDup_app in Hnd as (_ & Hdisj & _).
  intros Hin. apply (Hdisj _ Hin).
  replace (drop 4095 (all_frames 4096)) with [4095 * 4096] by (vm_compute; reflexivity).
  by apply list_elem_of_singleton.
Qed.

(** C2, counterexample.  After [client_init] every frame is in the free set;
    one allocation later the frame it returned is in none of the free set
    and the four rings. *)
Lemma allocated_frame_in_no_collection :
  conserved_in_rings 4096 client_ready ∧
  client_alloc_frame client_ready = Ok (4095 * 4096, client_taken) ∧
  4095 * 4096 ∈ all_frames 4096 ∧
  (4095 * 4096 ∉ free_set client_taken ++ ring_frames client_taken) ∧
  ¬ conserved_in_rings 4096 client_taken.
Proof.
  assert (Hin : 4095 * 4096 ∈ all_frames 4096).
  { apply all_frames_elem. exists 4095. unfold NUM_FRAMES. split; [lia|done]. }
  assert (Hnin : 4095 * 4096 ∉ (free_set client_taken ++ ring_frames client_taken)).
  { rewrite client_taken_free_set.
    change (ring_frames client_taken) with (@nil Z). rewrite app_nil_r.
    exact last_frame_not_free. }
  split_and!.
  - unfold conserved_in_rings.
    change (ring_frames client_ready) with (@nil Z). rewrite app_nil_r.
    rewrite free_set_full; [done| |done].
    apply pool_wf_set_pool; [apply all_frames_length|unfold NUM_FRAMES; lia].
  - exact client_ready_alloc.
  - done.
  - done.
  - unfold conserved_in_rings. intros Hperm. apply Hnin. by rewrite Hperm.
Qed.

(** Right after [client_init] every frame is in exactly one place, the
    free set. *)
Example client_ready_conserving : conserving 4096 (start client_ready).
Proof.
  apply (conserving_init 4096 client_fresh); [|done].
  unfold ring_wf, ring_avail. simpl. split_and!; [lia|by exists (2 ^ 21)|done|lia|lia].
Qed.

Lemma client_completed_conserving : conserving 4096 (start client_completed).
Proof.
  split_and!; [exact client_completed_wf|exact client_completed_ring_wf|].
  unfold conserved.
  replace (free_set (cl (start client_completed)) ++ live (start client_completed) ++
           ring_frames (cl (start client_completed)))
    with (all_frames 4096) by (vm_compute; reflexivity).
  done.
Qed.

Lemma client_completed_update :
  client_update 2048 client_completed =
    Ok (client_reclaimed,
        [EvWakeup; EvPeek Completion 2048 1;
         EvRead Completion 0 (4095 * 4096); EvPoolFree (4095 * 4096);
         EvRelease Completion 1]).
Proof. vm_compute. reflexivity. Qed.

Lemma frames_conserved_witness :
  let s := after_update (start client_completed) client_reclaimed in
  conserved 4096 s ∧
  NoDup (free_set (cl s) ++ live s ++ ring_frames (cl s)) ∧
  (∀ f, f ∈ (free_set (cl s) ++ live s ++ ring_frames (cl s)) ↔
        ∃ i, 0 ≤ i < NUM_FRAMES ∧ f = i * 4096).
Proof.
  apply (frames_conserved 4096 frame_size_4096_ok 2048 (start client_completed)).
  - exact client_completed_conserving.
  - apply rtc_once. eapply io_update. exact client_completed_update.
Defined.

(** * Further properties of the pool and of the polling step *)

(** ** Slots outside the free set *)

Lemma alloc_poisoned c f c' :
  pool_wf c → poisoned c → client_alloc_frame c = Ok (f, c') → poisoned c'.
Proof.
  intros Hwf Hp Ha.
  destruct (alloc_Ok_inv _ _ _ Hwf Ha) as [(_ & _ & ->)|(Hpos & _ & ->)]; [done|].
  destruct Hwf as [Hlen Hn]. intros i Hi. simpl in *.
  destruct (decide (i = Z.to_nat (num_frames c - 1))) as [->|Hne].
  - apply list_lookup_insert_eq. lia.
  - rewrite list_lookup_insert_ne by done. apply Hp. lia.
Qed.

Lemma free_poisoned c f c' :
  pool_wf c → poisoned c → client_free_frame c f = Ok c' → poisoned c'.
Proof.
  intros Hwf Hp Hf. destruct (free_Ok_inv _ _ _ Hwf Hf) as [Hlt ->].
  destruct Hwf as [Hlen Hn]. intros i Hi. simpl in *.
  rewrite list_lookup_insert_ne by lia. apply Hp. lia.
Qed.

Lemma free_completed_poisoned n : ∀ c idx tr c' tr',
  pool_wf c → poisoned c →
  free_completed n c idx tr = Ok (c', tr') → pool_wf c' ∧ poisoned c'.
Proof.
  induction n as [|n IH]; intros c idx tr c' tr' Hwf Hp Hrun.
  - simpl in Hrun. by injection Hrun as <- _.
  - cbn [free_completed] in Hrun.
    destruct (xsk_ring_cons__comp_addr (complete_queue c) idx) as [addr| |];
      simpl in Hrun; [|done..].
    destruct (client_free_frame c addr) as [c1| |] eqn:Hf; simpl in Hrun; [|done..].
    eapply IH; [|   |exact Hrun].
    + by eapply free_wf.
    + by eapply free_poisoned.
Qed.

Lemma update_poisoned ND c c' tr :
  pool_wf c → poisoned c →
  client_update ND c = Ok (c', tr) → pool_wf c' ∧ poisoned c'.
Proof.
  intros Hwf Hp Hup. unfold client_update, xsk_ring_cons__peek in Hup.
  destruct (0 <? Z.min ND (ring_avail (complete_queue c))).
  - destruct (free_completed _ c _ _) as [[c1 tr1]| |] eqn:Hrun; simpl in Hup; [|done..].
    injection Hup as <- _.
    by destruct (free_completed_poisoned _ _ _ _ _ _ Hwf Hp Hrun).
  - by injection Hup as <- _.
Qed.

Lemma poisoned_step ND s s' :
  pool_wf (cl s) ∧ poisoned (cl s) → io_step any_release ND s s' →
  pool_wf (cl s') ∧ poisoned (cl s').
Proof.
  intros [Hwf Hp] Hstep. destruct Hstep as [s s' Hpool|s c' tr Hup].
  - destruct Hpool as [s f c' Ha|s f c' _ Hf].
    + unfold after_alloc. case_decide; simpl;
        (split; [by eapply alloc_wf|by eapply alloc_poisoned]).
    + simpl. split; [by eapply free_wf|by eapply free_poisoned].
  - simpl. by eapply update_poisoned.
Qed.

(** X1.  Start from a well-formed pool in which every slot outside the free
    set holds the sentinel, as the full pool that [client_init] leaves.
    Whatever the callers allocate and release and however often the polling
    step runs, the pool stays well formed and every slot outside the free
    set still holds the sentinel: no stale frame stays behind in the
    array. *)
Theorem pool_slots_poisoned ND c0 s :
  pool_wf c0 → poisoned c0 →
  rtc (io_step any_release ND) (start c0) s →
  pool_wf (cl s) ∧ poisoned (cl s).
Proof.
  intros Hwf Hp Hreach. by_reachability poisoned_step. done.
Qed.

Lemma client_four_poisoned : poisoned client_four.
Proof.
  intros i Hi. unfold client_four in *. cbn [frames num_frames set_pool] in *.
  unfold NUM_FRAMES in *.
  rewrite lookup_app_r by (cbn [length]; lia).
  apply lookup_replicate_2. cbn [length]. lia.
Qed.

Lemma pool_slots_poisoned_witness :
  pool_wf (cl sys_three) ∧ poisoned (cl sys_three).
Proof.
  apply (pool_slots_poisoned 2048 client_four sys_three).
  - exact client_four_wf.
  - exact client_four_poisoned.
  - apply rtc_once, io_pool, step_alloc. exact client_four_alloc.
Defined.

(** ** Whole sequences of calls *)

Lemma run_app ops1 ops2 c :
  run (ops1 ++ ops2) c =
    '(fs1, c1) ← run ops1 c; '(fs2, c2) ← run ops2 c1; Ok (fs1 ++ fs2, c2).
Proof.
  revert c. induction ops1 as [|o ops1 IH]; intros c.
  - simpl. by destruct (run ops2 c) as [[fs2 c2]| |].
  - destruct o as [|f]; simpl.
    + destruct (client_alloc_frame c) as [[f c1]| |]; simpl; [|done..].
      rewrite IH. destruct (run ops1 c1) as [[fs1 c2]| |]; simpl; [|done..].
      by destruct (run ops2 c2) as [[fs2 c3]| |].
    + destruct (client_free_frame c f) as [c1| |]; simpl; [|done..]. apply IH.
Qed.

Lemma run_allocs n : ∀ c,
  pool_wf c →
  ∃ c', run (replicate n Alloc) c =
          Ok (take n (reverse (free_set c)) ++
              replicate (n - length (free_set c)) INVALID_FRAME, c') ∧
        free_set c' = take (length (free_set c) - n) (free_set c) ∧
        pool_wf c'.
Proof.
  induction n as [|n IH]; intros c Hwf.
  - exists c. simpl. rewrite Nat.sub_0_r, firstn_all. done.
  - destruct (Z.eq_dec (num_frames c) 0) as [Hz|Hnz].
    + pose proof (free_set_empty c Hz) as Hnil.
      destruct (IH c Hwf) as (c' & Hrun & Hfs & Hwf').
      exists c'. cbn [replicate run]. rewrite alloc_empty by done. simpl.
      rewrite Hrun. rewrite Hnil in Hfs |- *. rewrite take_nil in Hfs.
      change (reverse (@nil Z)) with (@nil Z). rewrite !take_nil.
      cbn [length]. rewrite !Nat.sub_0_r. simpl. by split_and!.
    + assert (Hpos : 0 < num_frames c) by (destruct Hwf; lia).
      destruct (alloc_nonempty c Hwf Hpos) as (f & Hf & Ha).
      pose proof (free_set_after_alloc c f Hwf Hpos Hf) as Hset.
      pose proof (alloc_wf _ _ _ Hwf Ha) as Hwf1.
      set (c1 := set_pool c _ _) in *.
      destruct (IH _ Hwf1) as (c' & Hrun & Hfs & Hwf').
      exists c'. cbn [replicate run]. rewrite Ha. simpl. rewrite Hrun. simpl.
      rewrite Hset, reverse_snoc, length_app. cbn [length take].
      replace (S n - (length (free_set c1) + 1))%nat
        with (n - length (free_set c1))%nat by lia.
      split_and!; [done| |done].
      rewrite Hfs, take_app_le by lia. f_equal. lia.
Qed.

(** X2.  Allocations in a row hand the free set out last in, first out: [n]
    of them return the free set in reverse, as far as it goes, and the
    sentinel from then on, and they leave the part of the free set that was
    not handed out. *)
Theorem allocations_drain_lifo n c :
  pool_wf c →
  ∃ c', run (replicate n Alloc) c =
          Ok (take n (reverse (free_set c)) ++
              replicate (n - length (free_set c)) INVALID_FRAME, c') ∧
        free_set c' = take (length (free_set c) - n) (free_set c) ∧
        num_frames c' = Z.max 0 (num_frames c - Z.of_nat n).
Proof.
  intros Hwf. destruct (run_allocs n c Hwf) as (c' & Hrun & Hfs & Hwf').
  exists c'. split_and!; [done|done|].
  apply (f_equal length) in Hfs.
  rewrite length_take, !free_set_length in Hfs by done.
  destruct Hwf as [_ Hn], Hwf' as [_ Hn']. lia.
Qed.

Lemma allocations_drain_lifo_witness :
  ∃ c', run (replicate 6 Alloc) client_four =
          Ok (take 6 (reverse (free_set client_four)) ++
              replicate (6 - length (free_set client_four)) INVALID_FRAME, c') ∧
        free_set c' = take (length (free_set client_four) - 6) (free_set client_four) ∧
        num_frames c' = Z.max 0 (num_frames client_four - Z.of_nat 6).
Proof.
  apply (allocations_drain_lifo 6 client_four). exact client_four_wf.
Defined.

Lemma run_frees l : ∀ c,
  pool_wf c → num_frames c + Z.of_nat (length l) ≤ NUM_FRAMES →
  ∃ c', run (Free <$> l) c = Ok ([], c') ∧ free_set c' = free_set c ++ l ∧ pool_wf c'.
Proof.
  induction l as [|f l IH]; intros c Hwf Hroom.
  - exists c. simpl. by rewrite app_nil_r.
  - simpl in Hroom.
    pose proof (free_room c f Hwf ltac:(lia)) as Hf.
    pose proof (free_wf _ _ _ Hwf Hf) as Hwf1.
    pose proof (free_set_after_free c f Hwf ltac:(lia)) as Hset.
    destruct (IH _ Hwf1) as (c' & Hrun & Hfs & Hwf'); [simpl; lia|].
    exists c'. cbn [fmap list_fmap run]. rewrite Hf. simpl.
    change (list_fmap Z op Free l) with (Free <$> l). rewrite Hrun.
    split_and!; [done| |done]. by rewrite Hfs, Hset, <- app_assoc.
Qed.

(** X3.  The pool is a stack for whole batches too: when there is room for
    them, releasing the frames of a list and then allocating as many returns
    the same frames in reverse order and leaves the free set as it was. *)
Theorem release_batch_then_allocate l c :
  pool_wf c → num_frames c + Z.of_nat (length l) ≤ NUM_FRAMES →
  ∃ c', run ((Free <$> l) ++ replicate (length l) Alloc) c = Ok (reverse l, c') ∧
        free_set c' = free_set c.
Proof.
  intros Hwf Hroom.
  destruct (run_frees l c Hwf Hroom) as (c1 & Hrun1 & Hfs1 & Hwf1).
  destruct (run_allocs (length l) c1 Hwf1) as (c' & Hrun2 & Hfs2 & _).
  exists c'. rewrite run_app, Hrun1. simpl. rewrite Hrun2. simpl.
  rewrite Hfs1 in *. rewrite length_app in *.
  split.
  - do 2 f_equal. rewrite reverse_app.
    rewrite take_app_length' by by rewrite length_reverse.
    replace (length l - (length (free_set c) + length l))%nat with 0%nat by lia.
    simpl. by rewrite app_nil_r.
  - rewrite Hfs2.
    replace (length (free_set c) + length l - length l)%nat
      with (length (free_set c)) by lia.
    by rewrite take_app_length.
Qed.

Lemma release_batch_then_allocate_witness :
  ∃ c', run ((Free <$> [16384; 20480]) ++ replicate (length [16384; 20480]) Alloc)
            client_four = Ok (reverse [16384; 20480], c') ∧
        free_set c' = free_set client_four.
Proof.
  apply (release_batch_then_allocate [16384; 20480] client_four).
  - exact client_four_wf.
  - by vm_compute.
Defined.

(** ** Releasing more than was allocated *)

(** X4.  The assertion of [client_free_frame] catches every over-release
    counted from a full pool: if the pool holds at least [NUM_FRAMES - bal]
    frames and the sequence of calls asks at some point for more releases
    than [bal] plus the allocations before, the run stops on the failed
    assertion. *)
Theorem over_release_aborts ops : ∀ bal c,
  pool_wf c → NUM_FRAMES - bal ≤ num_frames c →
  over_release bal ops = true →
  run ops c = AssertFail.
Proof.
  induction ops as [|o ops IH]; intros bal c Hwf Hbal Hover; [done|].
  destruct o as [|f]; simpl in Hover |- *.
  - assert (∃ g c1, client_alloc_frame c = Ok (g, c1) ∧ pool_wf c1 ∧
                    num_frames c - 1 ≤ num_frames c1) as (g & c1 & Ha & Hwf1 & Hn1).
    { destruct (Z.eq_dec (num_frames c) 0) as [Hz|Hnz].
      - exists INVALID_FRAME, c. rewrite alloc_empty by done. split_and!; [done|done|lia].
      - destruct (alloc_nonempty c Hwf) as (g & _ & Ha); [destruct Hwf; lia|].
        eexists g, _. split; [exact Ha|]. split; [by eapply alloc_wf|simpl; lia]. }
    rewrite Ha. simpl. rewrite (IH (bal + 1) c1); [done|done|lia|done].
  - destruct (Z.lt_ge_cases (num_frames c) NUM_FRAMES) as [Hlt|Hge].
    + pose proof (free_room c f Hwf Hlt) as Hf. rewrite Hf. simpl.
      apply orb_true_iff in Hover as [Hle|Hover]; [apply Z.leb_le in Hle; lia|].
      apply (IH (bal - 1)); [by eapply free_wf|simpl; lia|done].
    + by rewrite free_full.
Qed.

Lemma over_release_aborts_witness :
  run [Alloc; Free 0; Free 0] client_ready = AssertFail.
Proof.
  apply (over_release_aborts [Alloc; Free 0; Free 0] 0 client_ready).
  - apply pool_wf_set_pool; [apply all_frames_length|unfold NUM_FRAMES; lia].
  - simpl. lia.
  - reflexivity.
Defined.

(** ** The polling step at the limits *)

(** X5.  A polling step that finds more completed descriptors than the pool
    has room for stops the process: when [num_frames] plus the number of
    descriptors it peeks exceeds [NUM_FRAMES], the step ends on the failed
    assertion of [client_free_frame]. *)
Theorem update_aborts_on_overflow ND c :
  pool_wf c → ring_wf (complete_queue c) →
  NUM_FRAMES < num_frames c + Z.min ND (ring_avail (complete_queue c)) →
  client_update ND c = AssertFail.
Proof.
  intros Hwf Hr Hover. pose proof Hwf as [_ Hn].
  unfold client_update, xsk_ring_cons__peek.
  set (k := Z.min ND (ring_avail (complete_queue c))) in *.
  destruct (Z.ltb_spec 0 k) as [Hk|Hk]; [|lia].
  pose proof (free_completed_abort (Z.to_nat k) c 0 [EvWakeup; EvPeek Completion ND k]
                Hwf Hr ltac:(lia) ltac:(lia)) as Habort.
  simpl Z.of_nat in Habort. rewrite Z.add_0_r in Habort.
  simpl app. by rewrite Habort.
Qed.

Lemma client_spurious_wf : pool_wf client_spurious.
Proof. apply pool_wf_set_pool; [apply all_frames_length|unfold NUM_FRAMES; lia]. Qed.

Lemma client_spurious_ring_wf : ring_wf (complete_queue client_spurious).
Proof.
  unfold ring_wf, ring_avail. simpl. split_and!; [lia|by exists (2 ^ 21)|done|lia|lia].
Qed.

Lemma update_aborts_on_overflow_witness :
  client_update 2048 client_spurious = AssertFail.
Proof.
  apply (update_aborts_on_overflow 2048 client_spurious).
  - exact client_spurious_wf.
  - exact client_spurious_ring_wf.
  - by vm_compute.
Defined.

Lemma update_complete_queue ND c c' tr :
  pool_wf c → ring_wf (complete_queue c) →
  num_frames c + ring_avail (complete_queue c) ≤ NUM_FRAMES →
  client_update ND c = Ok (c', tr) →
  complete_queue c' =
    xsk_ring_cons__release (complete_queue c)
      (Z.max 0 (Z.min ND (ring_avail (complete_queue c)))) ∧
  num_frames c' = num_frames c + Z.max 0 (Z.min ND (ring_avail (complete_queue c))).
Proof.
  intros Hwf Hr Hroom Hup. pose proof Hr as (_ & _ & _ & Hav).
  unfold client_update, xsk_ring_cons__peek in Hup.
  set (k := Z.min ND (ring_avail (complete_queue c))) in *.
  destruct (Z.ltb_spec 0 k) as [Hk|Hk].
  - destruct (free_completed_spec (Z.to_nat k) c 0 [EvWakeup; EvPeek Completion ND k])
      as (c1 & Hrun & Hfs & Hwf1 & Hq & _); [done|done|lia|lia|].
    simpl Z.of_nat in Hrun. rewrite Z.add_0_r in Hrun.
    simpl app in Hup. rewrite Hrun in Hup. simpl in Hup. injection Hup as <- _.
    simpl. rewrite Hq. replace (Z.max 0 k) with k by lia. split; [done|].
    apply (f_equal length) in Hfs.
    rewrite length_app, length_take, length_drop, ring_contents_length,
      !free_set_length in Hfs by done.
    destruct Hwf as [_ Hn], Hwf1 as [_ Hn1]. lia.
  - injection Hup as <- _. replace (Z.max 0 k) with 0 by lia.
    split; [|lia]. unfold xsk_ring_cons__release. rewrite Z.add_0_r.
    by destruct (complete_queue c).
Qed.

(** X6.  One polling step moves exactly the descriptors it peeked, [k], the
    smaller of [NUM_DESCS] and the number of filled slots of the Completion
    ring: the pool counter grows by [k], the consumer index of the ring
    advances by [k], and the producer index, the capacity and the slots of
    the ring are not written. *)
Theorem update_moves_peeked ND c :
  pool_wf c → ring_wf (complete_queue c) →
  num_frames c + ring_avail (complete_queue c) ≤ NUM_FRAMES →
  let k := Z.max 0 (Z.min ND (ring_avail (complete_queue c))) in
  ∃ c' tr, client_update ND c = Ok (c', tr) ∧
    num_frames c' = num_frames c + k ∧
    ring_consumer (complete_queue c') = ring_consumer (complete_queue c) + k ∧
    ring_avail (complete_queue c') = ring_avail (complete_queue c) - k ∧
    ring_producer (complete_queue c') = ring_producer (complete_queue c) ∧
    ring_size (complete_queue c') = ring_size (complete_queue c) ∧
    ring_slots (complete_queue c') = ring_slots (complete_queue c).
Proof.
  intros Hwf Hr Hroom k.
  destruct (client_update_spec ND c Hwf Hr Hroom) as (c' & Hrun & _).
  destruct (update_complete_queue ND c c' _ Hwf Hr Hroom Hrun) as [Hq Hn].
  eexists c', _. split; [exact Hrun|]. fold k in Hq, Hn.
  rewrite Hq. unfold ring_avail. simpl. split_and!; (done || lia).
Qed.

Lemma client_backlog_wf : pool_wf client_backlog.
Proof. split; [by vm_compute|]. unfold NUM_FRAMES. simpl. lia. Qed.

Lemma client_backlog_ring_wf : ring_wf (complete_queue client_backlog).
Proof.
  unfold ring_wf, ring_avail. simpl. split_and!; [lia|by exists (2 ^ 21)|done|lia|lia].
Qed.

Lemma client_backlog_room :
  num_frames client_backlog + ring_avail (complete_queue client_backlog) ≤ NUM_FRAMES.
Proof. by vm_compute. Qed.

Lemma update_moves_peeked_witness :
  let k := Z.max 0 (Z.min 2 (ring_avail (complete_queue client_backlog))) in
  ∃ c' tr, client_update 2 client_backlog = Ok (c', tr) ∧
    num_frames c' = num_frames client_backlog + k ∧
    ring_consumer (complete_queue c') = ring_consumer (complete_queue client_backlog) + k ∧
    ring_avail (complete_queue c') = ring_avail (complete_queue client_backlog) - k ∧
    ring_producer (complete_queue c') = ring_producer (complete_queue client_backlog) ∧
    ring_size (complete_queue c') = ring_size (complete_queue client_backlog) ∧
    ring_slots (complete_queue c') = ring_slots (complete_queue client_backlog).
Proof.
  apply (update_moves_peeked 2 client_backlog).
  - exact client_backlog_wf.
  - exact client_backlog_ring_wf.
  - exact client_backlog_room.
Defined.

(** X7.  The frame that the polling step reclaimed last is the one the next
    allocation returns: after a step that peeked [k ≥ 1] descriptors,
    [client_alloc_frame] returns the [k]-th descriptor of the ring and
    leaves the other [k - 1] behind the old free set. *)
Theorem update_then_alloc ND c :
  pool_wf c → ring_wf (complete_queue c) →
  num_frames c + ring_avail (complete_queue c) ≤ NUM_FRAMES →
  0 < Z.min ND (ring_avail (complete_queue c)) →
  let k := Z.to_nat (Z.min ND (ring_avail (complete_queue c))) in
  ∃ c' tr f c'', client_update ND c = Ok (c', tr) ∧
    client_alloc_frame c' = Ok (f, c'') ∧
    ring_contents (complete_queue c) !! (k - 1)%nat = Some f ∧
    free_set c'' = free_set c ++ take (k - 1) (ring_contents (complete_queue c)).
Proof.
  intros Hwf Hr Hroom Hk k.
  destruct (client_update_spec ND c Hwf Hr Hroom)
    as (c' & Hrun & Hfs & _ & Hwf' & _). fold k in Hfs.
  destruct (update_complete_queue ND c c' _ Hwf Hr Hroom Hrun) as [_ Hn].
  assert (Hlast : (k - 1 < length (ring_contents (complete_queue c)))%nat).
  { rewrite ring_contents_length. lia. }
  destruct (lookup_lt_is_Some_2 _ _ Hlast) as [x Hx].
  assert (Hpos : 0 < num_frames c') by (destruct Hwf; lia).
  destruct (alloc_nonempty c' Hwf' Hpos) as (f & Hf & Ha).
  pose proof (free_set_after_alloc c' f Hwf' Hpos Hf) as Hset.
  eexists c', _, f, _. split; [exact Hrun|]. split; [exact Ha|].
  replace k with (S (k - 1)) in Hfs by lia.
  rewrite (take_S_r _ _ x) in Hfs by done.
  rewrite Hset, app_assoc in Hfs.
  apply app_inj_tail in Hfs as [Hfs ->]. by split.
Qed.

Lemma update_then_alloc_witness :
  let k := Z.to_nat (Z.min 2 (ring_avail (complete_queue client_backlog))) in
  ∃ c' tr f c'', client_update 2 client_backlog = Ok (c', tr) ∧
    client_alloc_frame c' = Ok (f, c'') ∧
    ring_contents (complete_queue client_backlog) !! (k - 1)%nat = Some f ∧
    free_set c'' =
      free_set client_backlog ++ take (k - 1) (ring_contents (complete_queue client_backlog)).
Proof.
  apply (update_then_alloc 2 client_backlog).
  - exact client_backlog_wf.
  - exact client_backlog_ring_wf.
  - exact client_backlog_room.
  - by vm_compute.
Defined.

(** ** Polling until the ring is empty *)

Lemma poll_spec ND n : ∀ c,
  pool_wf c → ring_wf (complete_queue c) →
  num_frames c + ring_avail (complete_queue c) ≤ NUM_FRAMES →
  0 < ND →
  ∃ c', poll ND n c = Ok c' ∧
    free_set c' =
      free_set c ++ take (n * Z.to_nat ND) (ring_contents (complete_queue c)) ∧
    ring_contents (complete_queue c') =
      drop (n * Z.to_nat ND) (ring_contents (complete_queue c)) ∧
    pool_wf c' ∧ ring_wf (complete_queue c').
Proof.
  induction n as [|n IH]; intros c Hwf Hr Hroom HND.
  - exists c. simpl. rewrite app_nil_r. by split_and!.
  - destruct (client_update_spec ND c Hwf Hr Hroom)
      as (c1 & Hrun & Hfs1 & Hq1 & Hwf1 & Hr1 & _).
    destruct (update_complete_queue ND c c1 _ Hwf Hr Hroom Hrun) as [Hcq Hn1].
    pose proof Hr as (_ & _ & _ & Hav).
    destruct (IH c1 Hwf1 Hr1) as (c' & Hpoll & Hfs & Hq & Hwf' & Hr'); [|done|].
    { rewrite Hn1, Hcq. unfold ring_avail in *. simpl. lia. }
    exists c'. cbn [poll]. rewrite Hrun. simpl. rewrite Hpoll.
    set (C := ring_contents (complete_queue c)) in *.
    set (k := Z.to_nat (Z.min ND (ring_avail (complete_queue c)))) in *.
    assert (HC : length C = Z.to_nat (ring_avail (complete_queue c)))
      by apply ring_contents_length.
    assert (Hk : k = Z.to_nat ND ∨ (length C ≤ k)%nat ∧ (length C ≤ Z.to_nat ND)%nat) by lia.
    split_and!; [done| | |done|done].
    + rewrite Hfs, Hfs1, Hq1, <- app_assoc, take_take_drop. f_equal.
      destruct Hk as [->|[Hk1 Hk2]]; [done|].
      rewrite !take_ge; [done|simpl; lia|lia].
    + rewrite Hq, Hq1, drop_drop.
      destruct Hk as [->|[Hk1 Hk2]]; [done|].
      rewrite !drop_ge; [done|simpl; lia|lia].
Qed.

(** X8.  Repeated polling empties the Completion ring in order: with a
    positive [NUM_DESCS] and room in the pool, once the steps made times
    [NUM_DESCS] cover the filled slots, every descriptor of the ring is in
    the free set, behind the frames that were free before and in ring order,
    and the ring is empty. *)
Theorem poll_drains_ring ND n c :
  pool_wf c → ring_wf (complete_queue c) →
  num_frames c + ring_avail (complete_queue c) ≤ NUM_FRAMES →
  0 < ND → ring_avail (complete_queue c) ≤ Z.of_nat n * ND →
  ∃ c', poll ND n c = Ok c' ∧
    free_set c' = free_set c ++ ring_contents (complete_queue c) ∧
    ring_contents (complete_queue c') = [] ∧
    num_frames c' = num_frames c + ring_avail (complete_queue c).
Proof.
  intros Hwf Hr Hroom HND Hn.
  destruct (poll_spec ND n c Hwf Hr Hroom HND) as (c' & Hpoll & Hfs & Hq & Hwf' & _).
  pose proof (ring_contents_length (complete_queue c)) as HC.
  pose proof Hr as (_ & _ & _ & Hav).
  assert (Hge : (length (ring_contents (complete_queue c)) ≤ n * Z.to_nat ND)%nat) by nia.
  rewrite take_ge in Hfs by done. rewrite drop_ge in Hq by done.
  exists c'. split_and!; [done..|].
  apply (f_equal length) in Hfs.
  rewrite length_app, !free_set_length in Hfs by done.
  destruct Hwf as [_ ?], Hwf' as [_ ?]. lia.
Qed.

Lemma poll_drains_ring_witness :
  ∃ c', poll 2 2 client_backlog = Ok c' ∧
    free_set c' = free_set client_backlog ++ ring_contents (complete_queue client_backlog) ∧
    ring_contents (complete_queue c') = [] ∧
    num_frames c' = num_frames client_backlog + ring_avail (complete_queue client_backlog).
Proof.
  apply (poll_drains_ring 2 2 client_backlog).
  - exact client_backlog_wf.
  - exact client_backlog_ring_wf.
  - exact client_backlog_room.
  - done.
  - by vm_compute.
Defined.

(** ** The frames right after [client_init] *)

Section init_pool.

Variable FS : Z.
Hypothesis FS_ok : frame_size_ok FS.

Lemma all_frames_lookup (i : nat) f :
  all_frames FS !! i = Some f ↔ f = Z.of_nat i * FS ∧ Z.of_nat i < NUM_FRAMES.
Proof.
  unfold all_frames. rewrite list_lookup_fmap, fmap_Some. split.
  - intros (x & [-> Hx]%lookup_seqZ & ->). split; [f_equal; lia|done].
  - intros [-> Hi]. exists (Z.of_nat i). split; [|done].
    apply lookup_seqZ. split; [lia|done].
Qed.

(** X9.  [client_init] cuts the buffer of [buffer_size] bytes into frames
    that lie inside it and do not overlap: every entry of the array is the
    start of [FRAME_SIZE] bytes within [0, buffer_size), and two different
    entries are at least [FRAME_SIZE] apart. *)
Theorem init_frames_partition c :
  length (frames c) = Z.to_nat NUM_FRAMES →
  ∃ c0, client_init_frames FS c = Ok c0 ∧
    buffer_size FS ≤ INT_MAX ∧
    (∀ (i : nat) fi, frames c0 !! i = Some fi → 0 ≤ fi ∧ fi + FS ≤ buffer_size FS) ∧
    (∀ (i j : nat) fi fj, i ≠ j →
       frames c0 !! i = Some fi → frames c0 !! j = Some fj →
       fi + FS ≤ fj ∨ fj + FS ≤ fi).
Proof.
  intros Hlen. destruct FS_ok as [Hpos Hfit].
  exists (set_pool c (all_frames FS) NUM_FRAMES).
  split; [by apply client_init_frames_spec|].
  split; [done|]. unfold buffer_size. cbn [frames set_pool]. split.
  - intros i fi [-> Hi]%all_frames_lookup. nia.
  - intros i j fi fj Hne [-> Hi]%all_frames_lookup [-> Hj]%all_frames_lookup. nia.
Qed.

(** X10.  After [client_init] the allocator hands the frames out from the
    top of the buffer downwards: for [n ≤ NUM_FRAMES], the [k]-th of [n]
    allocations in a row, counted from 0, returns
    [(NUM_FRAMES - 1 - k) * FRAME_SIZE], and [NUM_FRAMES - n] frames stay
    free. *)
Theorem init_allocations_descend c (n : nat) :
  length (frames c) = Z.to_nat NUM_FRAMES →
  Z.of_nat n ≤ NUM_FRAMES →
  ∃ c0 fs c', client_init_frames FS c = Ok c0 ∧
    run (replicate n Alloc) c0 = Ok (fs, c') ∧
    length fs = n ∧
    (∀ k : nat, (k < n)%nat → fs !! k = Some ((NUM_FRAMES - 1 - Z.of_nat k) * FS)) ∧
    num_frames c' = NUM_FRAMES - Z.of_nat n.
Proof.
  intros Hlen Hn.
  set (c0 := set_pool c (all_frames FS) NUM_FRAMES).
  assert (Hwf0 : pool_wf c0).
  { apply pool_wf_set_pool; [apply all_frames_length|unfold NUM_FRAMES; lia]. }
  assert (Hfs0 : free_set c0 = all_frames FS) by by apply free_set_full.
  destruct (run_allocs n c0 Hwf0) as (c' & Hrun & Hfs & Hwf').
  rewrite Hfs0, all_frames_length in Hrun, Hfs.
  replace (n - Z.to_nat NUM_FRAMES)%nat with 0%nat in Hrun by lia.
  simpl replicate in Hrun. rewrite app_nil_r in Hrun.
  eexists c0, _, c'. split; [by apply client_init_frames_spec|].
  split; [exact Hrun|].
  split_and!.
  - rewrite length_take, length_reverse, all_frames_length. lia.
  - intros k Hk. rewrite lookup_take_lt by done.
    rewrite reverse_lookup by (rewrite all_frames_length; lia).
    apply all_frames_lookup. rewrite all_frames_length. split; [f_equal|]; lia.
  - apply (f_equal length) in Hfs.
    rewrite length_take, free_set_length, all_frames_length in Hfs by done.
    destruct Hwf' as [_ ?]. lia.
Qed.

End init_pool.

Lemma init_frames_partition_witness :
  ∃ c0, client_init_frames 4096 client_fresh = Ok c0 ∧
    buffer_size 4096 ≤ INT_MAX ∧
    (∀ (i : nat) fi, frames c0 !! i = Some fi → 0 ≤ fi ∧ fi + 4096 ≤ buffer_size 4096) ∧
    (∀ (i j : nat) fi fj, i ≠ j →
       frames c0 !! i = Some fi → frames c0 !! j = Some fj →
       fi + 4096 ≤ fj ∨ fj + 4096 ≤ fi).
Proof.
  apply (init_frames_partition 4096 frame_size_4096_ok client_fresh).
  by vm_compute.
Defined.

Lemma init_allocations_descend_witness :
  ∃ c0 fs c', client_init_frames 4096 client_fresh = Ok c0 ∧
    run (replicate 3 Alloc) c0 = Ok (fs, c') ∧
    length fs = 3%nat ∧
    (∀ k : nat, (k < 3)%nat → fs !! k = Some ((NUM_FRAMES - 1 - Z.of_nat k) * 4096)) ∧
    num_frames c' = NUM_FRAMES - Z.of_nat 3.
Proof.
  apply (init_allocations_descend 4096 frame_size_4096_ok client_fresh 3).
  - by vm_compute.
  - by vm_compute.
Defined.

(** * Start-up, teardown and [main] *)

(** ** The search for the interface *)

(** The test [!client->interface_index] sees a zero exactly when
    [if_nametoindex] returned one: the conversion to [int] maps no other
    [unsigned int] to 0. *)
Lemma int_of_unsigned_zero z :
  0 ≤ z < 2 ^ 32 → (int_of_unsigned z =? 0) = (z =? 0).
Proof.
  intros Hz. unfold int_of_unsigned, INT_MAX.
  destruct (Z.leb_spec z (2 ^ 31 - 1)); [done|].
  destruct (Z.eqb_spec (z - 2 ^ 32) 0), (Z.eqb_spec z 0); lia.
Qed.

Lemma int_of_unsigned_small z : 0 ≤ z ≤ INT_MAX → int_of_unsigned z = z.
Proof. intros Hz. unfold int_of_unsigned. destruct (Z.leb_spec z INT_MAX); [done|lia]. Qed.

Lemma scan_interfaces_spec h name addrs p :
  scan_interfaces h name addrs p =
    match first_match h name addrs with
    | None => (None, false, p)
    | Some iap =>
        let p1 := set_interface_index (int_of_unsigned (if_nametoindex h (ifa_name iap)))
                    (log (IfNametoindex (ifa_name iap))
                       (log (Printf (msg_found (ifa_name iap))) p)) in
        if if_nametoindex h (ifa_name iap) =? 0
        then (Some 1, false, log (Printf msg_if_nametoindex) p1)
        else (None, true, p1)
    end.
Proof.
  induction addrs as [|iap rest IH]; [done|]. simpl.
  destruct (usable h iap && bool_decide (name = ifa_name iap)); [|done].
  by rewrite int_of_unsigned_zero by apply if_nametoindex_unsigned.
Qed.

Lemma first_match_Some h name addrs iap :
  first_match h name addrs = Some iap →
  ∃ before after, addrs = before ++ iap :: after ∧
    usable h iap = true ∧ ifa_name iap = name ∧
    Forall (λ other, usable h other = false ∨ ifa_name other ≠ name) before.
Proof.
  induction addrs as [|x rest IH]; [done|]. simpl.
  destruct (usable h x) eqn:Hu; simpl.
  - case_bool_decide as Hn.
    + intros [= ->]. exists [], rest. by split_and!.
    + intros (before & after & -> & ? & ? & ?)%IH.
      exists (x :: before), after. split_and!; [done..|].
      apply Forall_cons. split; [right; congruence|done].
  - intros (before & after & -> & ? & ? & ?)%IH.
    exists (x :: before), after. split_and!; [done..|].
    apply Forall_cons. split; [by left|done].
Qed.

(** ** Case analysis of [client_init] *)

Lemma and_then_Ok block rest p r p' :
  (block >>> rest) p = Ok (r, p') →
  ∃ q, block p = Ok (Some r, p') ∨ (block p = Ok (None, q) ∧ rest q = Ok (r, p')).
Proof.
  unfold and_then. intros H.
  destruct (block p) as [[[v|] q]| |]; simpl in H; [|by exists q; right|done..].
  injection H as <- <-. exists q. by left.
Qed.

Lemma init_allocator_unfold h p :
  init_allocator h p =
    client_init_frames (FRAME_SIZE h) (core p) ≫= λ c, Ok (0, set_core c p).
Proof. reflexivity. Qed.

Lemma init_allocator_Ok h p r p' :
  frame_size_ok (FRAME_SIZE h) → process_wf p →
  init_allocator h p = Ok (r, p') →
  r = 0 ∧ p' = set_core (set_pool (core p) (all_frames (FRAME_SIZE h)) NUM_FRAMES) p.
Proof.
  intros Hok Hwf H.
  rewrite init_allocator_unfold, (client_init_frames_spec _ Hok (core p) Hwf) in H.
  by injection H as <- <-.
Qed.

Ltac block_unfold H :=
  unfold check_root, find_interface, load_program, attach_program, unlimit_memlock,
    allocate_buffer, create_umem, find_xsks_map, create_socket, update_xskmap,
    fail_with, proceed in H;
  try rewrite scan_interfaces_spec in H.

Ltac block_cases H :=
  repeat (cbn beta iota zeta delta [negb] in H;
          match type of H with
          | context [if ?b then _ else _] => destruct b eqn:?
          | context [match first_match ?h ?n ?l with _ => _ end] =>
              destruct (first_match h n l) eqn:?
          end).

(** Splits [H : client_init h name p = Ok (r, p')] into the ways through the
    function, one goal for each [return]. *)
Ltac init_paths H :=
  first
    [ let q := fresh "q" in
      let Hb := fresh "Hb" in
      apply and_then_Ok in H as [q [H|[Hb H]]];
      [ clear q; block_unfold H; block_cases H; simplify_eq
      | block_unfold Hb; block_cases Hb; simplify_eq; init_paths H ]
    | apply init_allocator_Ok in H as [? ?]; [subst|assumption|assumption] ].

(** Brings [calls q], for [q] built from [p] by the blocks, into the form
    [calls p ++ new]. *)
Ltac trace_norm :=
  cbn [calls core frames num_frames log set_interface_index set_program
       set_attached_native set_attached_skb set_buffer set_core set_umem set_socket
       set_pool];
  rewrite <- ?app_assoc; cbn [app].

(** ** X11: failures leave the pool alone and say why *)

(** X11.  When [client_init] returns, it has printed exactly one error
    message if it returns 1 and none if it returns 0.  In the first case the
    message is the last call it made, and the allocator was not touched: the
    array and the counter of the pool are as before. *)
Theorem client_init_error_reporting h name p r p' :
  frame_size_ok (FRAME_SIZE h) → process_wf p →
  client_init h name p = Ok (r, p') →
  ∃ new, calls p' = calls p ++ new ∧
    count is_error new = (if r =? 0 then 0%nat else 1%nat) ∧
    (r ≠ 0 →
       (∃ e, last new = Some e ∧ is_error e = true) ∧
       frames (core p') = frames (core p) ∧
       num_frames (core p') = num_frames (core p)).
Proof.
  intros Hok Hwf H. unfold client_init in H.
  init_paths H.
  all: eexists; split; [trace_norm; reflexivity|].
  all: split; [reflexivity|].
  all: intros Hr; try done.
  all: split; [eexists; split; reflexivity|done].
Qed.

(** ** [client_init] always returns *)

Ltac goal_cases :=
  repeat (cbn beta iota zeta delta [negb];
          match goal with
          | |- context [if ?b then _ else _] => destruct b eqn:?
          | |- context [match first_match ?h ?n ?l with _ => _ end] =>
              destruct (first_match h n l) eqn:?
          end).

Ltac block_total :=
  let p := fresh "p" in
  let Hwf := fresh "Hwf" in
  intros p Hwf;
  unfold check_root, find_interface, load_program, attach_program, unlimit_memlock,
    allocate_buffer, create_umem, find_xsks_map, create_socket, update_xskmap,
    fail_with, proceed;
  try rewrite scan_interfaces_spec;
  goal_cases; eexists _, _; (split; [reflexivity|exact Hwf]).

Lemma and_then_total block rest :
  (∀ p, process_wf p → ∃ ro q, block p = Ok (ro, q) ∧ process_wf q) →
  (∀ q, process_wf q → ∃ r p', rest q = Ok (r, p')) →
  ∀ p, process_wf p → ∃ r p', (block >>> rest) p = Ok (r, p').
Proof.
  intros Hblock Hrest p Hwf.
  destruct (Hblock p Hwf) as (ro & q & Hb & Hq).
  unfold and_then. rewrite Hb. simpl. destruct ro as [v|]; [by eauto|by apply Hrest].
Qed.

Lemma client_init_total h name p :
  frame_size_ok (FRAME_SIZE h) → process_wf p →
  ∃ r p', client_init h name p = Ok (r, p').
Proof.
  intros Hok. revert p. unfold client_init.
  repeat (apply and_then_total; [block_total|]).
  intros q Hq. rewrite init_allocator_unfold, (client_init_frames_spec _ Hok (core q) Hq).
  by eexists _, _.
Qed.

(** Turns the tests of the code into facts about the host. *)
Ltac host_facts :=
  repeat match goal with
    | H : negb _ = true |- _ => apply negb_true_iff in H
    | H : negb _ = false |- _ => apply negb_false_iff in H
    | H : (_ =? _) = true |- _ => apply Z.eqb_eq in H
    | H : (_ =? _) = false |- _ => apply Z.eqb_neq in H
    | H : (_ <? _) = true |- _ => apply Z.ltb_lt in H
    | H : (_ <? _) = false |- _ => apply Z.ltb_ge in H
    end.

(** ** X12: the return value *)

Lemma client_init_ready h name p :
  frame_size_ok (FRAME_SIZE h) → process_wf p →
  ∃ r p', client_init h name p = Ok (r, p') ∧
    (r = 0 ∨ r = 1) ∧ (r = 0 ↔ host_ready h name).
Proof.
  intros Hok Hwf.
  destruct (client_init_total h name p Hok Hwf) as (r & p' & H).
  exists r, p'. split; [done|].
  unfold client_init in H. init_paths H; host_facts.
  all: try (split; [by right|]; split; [done|];
            intros (? & ? & (iap & ? & ?) & ? & [?|?] & ? & ? & ? & ? & ? & ?);
            simplify_eq; lia).
  all: split; [by left|]; split; [|done]; intros _.
  all: unfold host_ready; split_and!; try done; try lia; try (by eexists).
  all: first [left; lia|right; lia].
Qed.


Lemma client_init_core h name p p' :
  frame_size_ok (FRAME_SIZE h) → process_wf p →
  client_init h name p = Ok (0, p') →
  complete_queue (core p') = snd (snd (xsk_umem__create h)) ∧
  frames (core p') = all_frames (FRAME_SIZE h) ∧
  num_frames (core p') = NUM_FRAMES.
Proof.
  intros Hok Hwf H. unfold client_init in H.
  init_paths H. all: trace_norm. all: done.
Qed.

(** X12.  [client_init] always returns, and it returns 0 or 1: 0 exactly
    when every external call succeeded (the user is root, [getifaddrs]
    worked, the first usable interface of that name has an index, the
    program loaded and attached in native or in skb mode, the memory limit,
    the buffer, the umem, the map, the socket and the map update all
    worked), and 1 otherwise. *)
Theorem client_init_returns h name p :
  frame_size_ok (FRAME_SIZE h) → process_wf p →
  ∃ r p', client_init h name p = Ok (r, p') ∧
    (r = 0 ∨ r = 1) ∧ (r = 0 ↔ host_ready h name).
Proof. apply client_init_ready. Qed.

(** ** X13: what a successful start-up leaves *)

(** X13.  When [client_init] returns 0, the client holds what the calls
    gave it: the index of the interface, which is the [unsigned int] that
    [if_nametoindex] returned converted to [int] (the same number up to
    [INT_MAX], that number minus [2 ^ 32] above it), is not 0, and is the
    index of the first entry of the list of [getifaddrs] that is usable (an
    address, up, of family [AF_INET]) and has the wanted name, entries
    before it being unusable or of another name; the program, the buffer,
    the umem
    with the Fill and Completion rings and the socket with the Receive and
    Transmit rings as stored by the calls; and a full pool with
    [frames[i] = i * FRAME_SIZE]. *)
Theorem client_init_success h name p p' :
  frame_size_ok (FRAME_SIZE h) → process_wf p →
  client_init h name p = Ok (0, p') →
  (∃ before iap after,
      snd (getifaddrs h) = before ++ iap :: after ∧
      usable h iap = true ∧ ifa_name iap = name ∧
      Forall (λ other, usable h other = false ∨ ifa_name other ≠ name) before ∧
      interface_index p' = int_of_unsigned (if_nametoindex h name) ∧
      (if_nametoindex h name ≤ INT_MAX → interface_index p' = if_nametoindex h name) ∧
      (INT_MAX < if_nametoindex h name →
         interface_index p' = if_nametoindex h name - 2 ^ 32 ∧ interface_index p' < 0) ∧
      interface_index p' ≠ 0) ∧
  program p' = xdp_program__open_file h ∧
  buffer p' = snd (posix_memalign h) ∧
  (umem p', fill_queue (core p'), complete_queue (core p')) = snd (xsk_umem__create h) ∧
  (xsk p', receive_queue (core p'), send_queue (core p')) = snd (xsk_socket__create h) ∧
  frames (core p') = all_frames (FRAME_SIZE h) ∧
  num_frames (core p') = NUM_FRAMES ∧
  free_set (core p') = all_frames (FRAME_SIZE h).
Proof.
  intros Hok Hwf H. unfold client_init in H.
  init_paths H; host_facts.
  all: match goal with
       | Hm : first_match _ _ _ = Some ?iap |- _ =>
           destruct (first_match_Some _ _ _ _ Hm) as (before & after & Hl & Hu & Hn & Hb);
           pose proof (if_nametoindex_unsigned h (ifa_name iap)) as Hrange;
           split; [exists before, iap, after; trace_norm; subst name;
                   cbn [interface_index log set_interface_index set_program
                        set_attached_native set_attached_skb set_buffer set_core
                        set_umem set_socket];
                   unfold int_of_unsigned, INT_MAX;
                   destruct (Z.leb_spec (if_nametoindex h (ifa_name iap)) (2 ^ 31 - 1));
                   split_and!; first [done|lia]|]
       end.
  all: trace_norm.
  all: destruct (xsk_umem__create h) as [? [[? ?] ?]];
       destruct (xsk_socket__create h) as [? [[? ?] ?]].
  all: split_and!; try done.
  all: unfold free_set; cbn [frames num_frames]; apply take_ge;
       rewrite all_frames_length; lia.
Qed.

(** ** X14: the two modes of attachment *)

(** X14.  Starting with both flags clear, [client_init] tries the native
    mode at most once and the skb mode at most once, the skb mode only after
    the native mode failed; afterwards [attached_native] is set exactly when
    the native attempt was made and succeeded, [attached_skb] exactly when
    the skb attempt was made and succeeded, and never both. *)
Theorem client_init_attach_fallback h name p r p' :
  frame_size_ok (FRAME_SIZE h) → process_wf p →
  attached_native p = false → attached_skb p = false →
  client_init h name p = Ok (r, p') →
  ∃ new, calls p' = calls p ++ new ∧
    (count (is_attach XDP_MODE_NATIVE) new ≤ 1)%nat ∧
    (count (is_attach XDP_MODE_SKB) new ≤ 1)%nat ∧
    (count (is_attach XDP_MODE_SKB) new = 1%nat →
       count (is_attach XDP_MODE_NATIVE) new = 1%nat ∧
       xdp_program__attach h XDP_MODE_NATIVE ≠ 0) ∧
    (attached_native p' = true ↔
       count (is_attach XDP_MODE_NATIVE) new = 1%nat ∧
       xdp_program__attach h XDP_MODE_NATIVE = 0) ∧
    (attached_skb p' = true ↔
       count (is_attach XDP_MODE_SKB) new = 1%nat ∧
       xdp_program__attach h XDP_MODE_SKB = 0) ∧
    ¬ (attached_native p' = true ∧ attached_skb p' = true).
Proof.
  intros Hok Hwf Hnat Hskb H. unfold client_init in H.
  init_paths H; host_facts.
  all: eexists; split; [trace_norm; reflexivity|].
  all: cbn [attached_native attached_skb log set_interface_index set_program
            set_attached_native set_attached_skb set_buffer set_core set_umem
            set_socket].
  all: rewrite ?Hnat, ?Hskb.
  all: repeat match goal with
         | |- context [count ?f ?l] =>
             let v := eval vm_compute in (count f l) in
             change (count f l) with v
         end.
  all: split_and!; try lia; try (intros ?; split; (lia || done)).
  all: try (split; [done|]; intros [? ?]; (lia || done)).
  all: try (split; [|done]; intros ?; split; (lia || done)).
  all: try (intros [? ?]; done).
Qed.

(** ** X15: the list of [getifaddrs] *)

(** X15.  [client_init] calls [freeifaddrs] at most once, and exactly once
    when the user is root, [getifaddrs] succeeded and [if_nametoindex] did
    not fail for the interface that was found.  So when [if_nametoindex]
    returns 0 for that interface the function returns without freeing the
    list. *)
Theorem client_init_freeifaddrs h name p r p' :
  frame_size_ok (FRAME_SIZE h) → process_wf p →
  client_init h name p = Ok (r, p') →
  ∃ new, calls p' = calls p ++ new ∧
    (count is_freeifaddrs new ≤ 1)%nat ∧
    (count is_freeifaddrs new = 1%nat ↔
       geteuid h = 0 ∧ fst (getifaddrs h) = 0 ∧
       ∀ iap, first_match h name (snd (getifaddrs h)) = Some iap →
              if_nametoindex h (ifa_name iap) ≠ 0).
Proof.
  intros Hok Hwf H. unfold client_init in H.
  init_paths H; host_facts.
  all: eexists; split; [trace_norm; reflexivity|].
  all: repeat match goal with
         | |- context [count ?f ?l] =>
             let v := eval vm_compute in (count f l) in
             change (count f l) with v
         end.
  all: split; [lia|].
  all: split; [intros ?|intros (? & ? & Hidx)]; try lia.
  all: try (split_and!; try done; intros ? ?; by simplify_eq).
  all: try (by eapply Hidx).
  all: by destruct (Hidx _ eq_refl).
Qed.

(** ** Teardown *)

Lemma client_shutdown_calls p :
  calls (client_shutdown p) =
    calls p ++ (if program p =? NULL then [] else teardown p).
Proof.
  unfold client_shutdown, teardown.
  destruct (program p =? NULL); [by rewrite app_nil_r|].
  destruct p as [idx prog native skb buf um sock c l]. simpl.
  destruct native, skb; simpl; by rewrite <- ?app_assoc.
Qed.

(** X16.  After a start-up that succeeded from cleared flags and gave a
    non-null program, [client_shutdown] detaches the program once, from the
    interface index as the [int] field holds it (the result of
    [if_nametoindex] converted to [int]) and in the mode in which it was
    attached (native if that worked, skb otherwise), then closes it, deletes
    the socket, deletes the umem and frees the buffer, in this order and
    with the handles that the start-up stored. *)
Theorem shutdown_after_init h name p p' :
  frame_size_ok (FRAME_SIZE h) → process_wf p →
  attached_native p = false → attached_skb p = false →
  xdp_program__open_file h ≠ NULL →
  client_init h name p = Ok (0, p') →
  calls (client_shutdown p') =
    calls p' ++
    [Detach (xdp_program__open_file h) (int_of_unsigned (if_nametoindex h name))
       (if xdp_program__attach h XDP_MODE_NATIVE =? 0
        then XDP_MODE_NATIVE else XDP_MODE_SKB);
     Close (xdp_program__open_file h);
     SocketDelete (fst (fst (snd (xsk_socket__create h))));
     UmemDelete (fst (fst (snd (xsk_umem__create h))));
     FreeBuffer (snd (posix_memalign h))].
Proof.
  intros Hok Hwf Hnat Hskb Hprog H.
  rewrite client_shutdown_calls. unfold client_init in H.
  init_paths H; host_facts.
  all: match goal with
       | Hm : first_match _ _ _ = Some ?iap |- _ =>
           destruct (first_match_Some _ _ _ _ Hm) as (_ & _ & _ & _ & <- & _)
       end.
  all: unfold teardown;
       cbn [program attached_native attached_skb interface_index xsk umem buffer
            log set_interface_index set_program set_attached_native set_attached_skb
            set_buffer set_core set_umem set_socket].
  all: rewrite ?Hnat, ?Hskb.
  all: destruct (Z.eqb_spec (xdp_program__open_file h) NULL) as [?|_]; [done|].
  all: destruct (Z.eqb_spec (xdp_program__attach h XDP_MODE_NATIVE) 0) as [?|?];
       try done.
Qed.

(** X17.  [cleanup] after a failed start-up of the zeroed client.  When the
    start-up failed before it loaded the program, [cleanup] tears nothing
    down and only flushes the output.  When it failed because the program
    did not load and [xdp_program__open_file] returned a non-null (error)
    pointer, [cleanup] nevertheless closes that pointer and deletes the
    socket, the umem and the buffer that were never created, with the
    handles the client had before. *)
Theorem cleanup_after_failed_init h name p r p' :
  frame_size_ok (FRAME_SIZE h) → process_wf p →
  program p = NULL → attached_native p = false → attached_skb p = false →
  client_init h name p = Ok (r, p') → r ≠ 0 →
  (¬ interface_found h name → calls (cleanup p') = calls p' ++ [Fflush]) ∧
  (interface_found h name →
   libxdp_get_error h (xdp_program__open_file h) ≠ 0 →
   xdp_program__open_file h ≠ NULL →
   calls (cleanup p') =
     calls p' ++ [Close (xdp_program__open_file h); SocketDelete (xsk p);
                  UmemDelete (umem p); FreeBuffer (buffer p); Fflush]).
Proof.
  intros Hok Hwf Hprog Hnat Hskb H Hr.
  unfold cleanup. cbn [calls log]. rewrite client_shutdown_calls.
  unfold client_init in H.
  init_paths H; host_facts; try done.
  all: unfold teardown, interface_found;
       cbn [program attached_native attached_skb interface_index xsk umem buffer
            log set_interface_index set_program set_attached_native set_attached_skb
            set_buffer set_core set_umem set_socket] in *.
  all: rewrite ?Hnat, ?Hskb, ?Hprog.
  all: split; [intros Hnot|intros Hfound Herr Hnull].
  all: try (by rewrite <- app_assoc).
  all: try (destruct Hnot; split_and!; try done; by eexists).
  all: try (destruct Hfound as (? & ? & iap & ? & ?); simplify_eq; lia).
  all: try (destruct (Z.eqb_spec (xdp_program__open_file h) NULL) as [?|_]; [done|];
            by rewrite <- app_assoc).
Qed.

(** ** [main] *)

Lemma count_app f l1 l2 : count f (l1 ++ l2) = (count f l1 + count f l2)%nat.
Proof. unfold count. by rewrite filter_app, length_app. Qed.

Lemma count_cons f e l :
  count f (e :: l) = ((if f e then 1 else 0) + count f l)%nat.
Proof.
  unfold count. rewrite filter_cons.
  destruct (f e); case_decide; simpl; done.
Qed.

Lemma client_init_calls h name p r p' :
  frame_size_ok (FRAME_SIZE h) → process_wf p →
  client_init h name p = Ok (r, p') →
  ∃ new, calls p' = calls p ++ Geteuid :: new ∧
    count is_update new = 0%nat ∧ count is_usleep new = 0%nat ∧
    count is_fflush new = 0%nat.
Proof.
  intros Hok Hwf H. unfold client_init in H.
  init_paths H.
  all: eexists; split; [trace_norm; reflexivity|].
  all: by split_and!.
Qed.

Lemma client_shutdown_counts p :
  ∃ td, calls (client_shutdown p) = calls p ++ td ∧
    count is_update td = 0%nat ∧ count is_usleep td = 0%nat ∧
    count is_fflush td = 0%nat.
Proof.
  eexists. split; [apply client_shutdown_calls|].
  unfold teardown.
  by destruct (program p =? NULL), (attached_native p), (attached_skb p).
Qed.

Lemma deliver_true sigs : deliver sigs true = true.
Proof.
  unfold deliver. induction sigs as [|sig sigs IH]; [done|].
  simpl. by destruct sig.
Qed.

Lemma deliver_spec sigs quit :
  deliver sigs quit = match sigs with [] => quit | _ :: _ => true end.
Proof.
  destruct sigs as [|sig sigs]; [done|].
  unfold deliver. simpl.
  replace (handler sig sig quit) with true by by destruct sig.
  apply deliver_true.
Qed.

Lemma main_loop_Some h sched : ∀ p p1,
  main_loop h sched false p = Ok (Some p1) →
  ∃ loop, calls p1 = calls p ++ loop ∧
    count is_update loop = ticks_before_signal sched ∧
    count is_usleep loop = ticks_before_signal sched ∧
    count is_fflush loop = 0%nat ∧
    (ticks_before_signal sched < length sched)%nat.
Proof.
  induction sched as [|t sched IH]; intros p p1 H; [done|].
  cbn [main_loop] in H. rewrite deliver_spec in H.
  cbn [ticks_before_signal length].
  destruct (delivered t) as [|sig sigs].
  - destruct (client_update _ _) as [[c ev]| |]; simpl in H; [|done..].
    apply IH in H as (loop & Hc & Hu & Hs & Hf & Hl).
    exists (Update ev :: Usleep 1000000 :: loop).
    cbn [calls log set_core] in Hc. rewrite Hc, <- !app_assoc. cbn [app].
    split; [done|].
    change (Update ev :: Usleep 1000000 :: loop)
      with ([Update ev; Usleep 1000000] ++ loop).
    rewrite !count_app, Hu, Hs, Hf. split_and!; [done|done|done|lia].
  - injection H as <-. exists []. cbn [calls set_core]. rewrite app_nil_r.
    split_and!; [done..|lia].
Qed.

Lemma main_unfold h sched :
  main h sched =
    '(r, p) ← client_init h "enp8s0f0"
                (log (Signal SIGHUP) (log (Signal SIGTERM) (log (Signal SIGINT)
                   (log (Printf msg_banner) process_start))));
    if negb (r =? 0) then Ok (Some (1, cleanup p))
    else
      res ← main_loop h sched false p;
      match res with
      | None => Ok None
      | Some p => Ok (Some (0, log (Printf nl) (cleanup p)))
      end.
Proof. reflexivity. Qed.

Lemma process_start_wf :
  process_wf (log (Signal SIGHUP) (log (Signal SIGTERM) (log (Signal SIGINT)
                (log (Printf msg_banner) process_start)))).
Proof. unfold process_wf. cbn [core log process_start frames]. apply length_replicate. Qed.


(** ** Polling with a quiet kernel *)

Lemma update_idle ND c :
  Z.min ND (ring_avail (complete_queue c)) ≤ 0 →
  client_update ND c =
    Ok (c, [EvWakeup; EvPeek Completion ND (Z.min ND (ring_avail (complete_queue c)))]).
Proof.
  intros Hk. unfold client_update, xsk_ring_cons__peek.
  by destruct (Z.ltb_spec 0 (Z.min ND (ring_avail (complete_queue c)))); [lia|].
Qed.

Lemma main_loop_quiet h sig rest n : ∀ p,
  ring_avail (complete_queue (core p)) ≤ 0 →
  ∃ p1, main_loop h (replicate n quiet ++ signalled sig :: rest) false p = Ok (Some p1) ∧
        core p1 = core p.
Proof.
  induction n as [|n IH]; intros p Hav.
  - eexists. cbn [replicate app main_loop]. rewrite deliver_spec.
    cbn [delivered signalled kernel_acts kernel_rings]. split; [reflexivity|done].
  - cbn [replicate app main_loop]. rewrite deliver_spec.
    cbn [delivered quiet kernel_acts kernel_rings core set_core].
    rewrite update_idle by lia.
    cbn [mbind outcome_mbind outcome_bind].
    edestruct (IH (log (Usleep 1000000)
                 (log (Update [EvWakeup; EvPeek Completion (NUM_DESCS h)
                          (Z.min (NUM_DESCS h) (ring_avail (complete_queue (core p))))])
                    (set_core (core p) (set_core (core p) p))))) as (p1 & Hrun & Hcore);
      [done|].
    exists p1. split; [exact Hrun|done].
Qed.

Lemma ticks_before_signal_quiet n sig rest :
  ticks_before_signal (replicate n quiet ++ signalled sig :: rest) = n.
Proof. induction n as [|n IH]; [done|]. simpl. by rewrite IH. Qed.

Lemma client_shutdown_core p : core (client_shutdown p) = core p.
Proof.
  unfold client_shutdown. destruct (program p =? NULL); [done|].
  destruct p as [idx prog native skb buf um sock c l]. simpl.
  by destruct native, skb.
Qed.

(** X19.  On a host where every external call succeeds and the Completion
    ring starts out empty, with a kernel that leaves the rings alone: if the
    first signal, [SIGINT], [SIGTERM] or [SIGHUP], is delivered after [n]
    tests of [quit], [main] polls exactly [n] times and sleeps as many
    times, leaves the pool full, and returns 0. *)
Theorem main_polls_until_signal h n sig rest :
  frame_size_ok (FRAME_SIZE h) → host_ready h "enp8s0f0" →
  ring_avail (snd (snd (xsk_umem__create h))) ≤ 0 →
  ∃ p', main h (replicate n quiet ++ signalled sig :: rest) = Ok (Some (0, p')) ∧
    count is_update (calls p') = n ∧ count is_usleep (calls p') = n ∧
    num_frames (core p') = NUM_FRAMES ∧
    frames (core p') = all_frames (FRAME_SIZE h).
Proof.
  intros Hok Hready Hempty.
  destruct (client_init_ready h "enp8s0f0" _ Hok process_start_wf)
    as (r0 & p0 & Hinit & _ & Hiff).
  apply Hiff in Hready as ->.
  destruct (client_init_core _ _ _ _ Hok process_start_wf Hinit) as (Hcq & Hfr & Hnum).
  destruct (client_init_calls _ _ _ _ _ Hok process_start_wf Hinit)
    as (new & Hnew & Hnu & Hns & _).
  destruct (main_loop_quiet h sig rest n p0) as (p1 & Hloop & Hcore);
    [by rewrite Hcq|].
  destruct (main_loop_Some _ _ _ _ Hloop) as (loop & Hc & Hu & Hs & _).
  destruct (client_shutdown_counts p1) as (td & Htd & Htu & Hts & _).
  rewrite ticks_before_signal_quiet in Hu, Hs.
  exists (log (Printf nl) (cleanup p1)). split.
  { rewrite main_unfold, Hinit. cbn [mbind outcome_mbind outcome_bind Z.eqb negb].
    by rewrite Hloop. }
  unfold cleanup. cbn [calls core log]. rewrite client_shutdown_core, Hcore.
  rewrite Htd, Hc, Hnew. cbn [calls log process_start app].
  rewrite !count_cons, !count_app, Hnu, Hns, Hu, Hs, Htu, Hts.
  cbn [is_update is_usleep]. change (count _ [_]) with 0%nat.
  split_and!; [lia|lia|done|done].
Qed.

Lemma main_loop_polls h sig rest n : ∀ p p1,
  main_loop h (replicate n quiet ++ signalled sig :: rest) false p = Ok (Some p1) →
  poll (NUM_DESCS h) n (core p) = Ok (core p1).
Proof.
  induction n as [|n IH]; intros p p1 H.
  - cbn [replicate app main_loop] in H. rewrite deliver_spec in H.
    cbn [delivered signalled kernel_acts kernel_rings] in H. by injection H as <-.
  - cbn [replicate app main_loop] in H. rewrite deliver_spec in H.
    cbn [delivered quiet kernel_acts kernel_rings core set_core] in H.
    cbn [poll].
    destruct (client_update (NUM_DESCS h) (core p)) as [[c ev]| |]; simpl in H; [|done..].
    simpl. by apply IH in H.
Qed.

(** ** The properties on concrete hosts *)

Lemma process_start_wf0 : process_wf process_start.
Proof. unfold process_wf. cbn [core process_start frames]. apply length_replicate. Qed.

Lemma init_fine : client_init host_fine "enp8s0f0" process_start = Ok (0, started host_fine).
Proof. vm_compute. reflexivity. Qed.

Lemma init_not_root :
  client_init host_not_root "enp8s0f0" process_start = Ok (1, started host_not_root).
Proof. vm_compute. reflexivity. Qed.

Lemma init_no_index :
  client_init host_no_index "enp8s0f0" process_start = Ok (1, started host_no_index).
Proof. vm_compute. reflexivity. Qed.

Lemma init_no_program :
  client_init host_no_program "enp8s0f0" process_start = Ok (1, started host_no_program).
Proof. vm_compute. reflexivity. Qed.

Lemma host_fine_ready : host_ready host_fine "enp8s0f0".
Proof.
  unfold host_ready. split_and!; try done.
  - eexists. split; [by vm_compute|done].
  - by right.
Qed.

Lemma client_init_error_reporting_witness :
  ∃ new, calls (started host_not_root) = calls process_start ++ new ∧
    count is_error new = (if 1 =? 0 then 0%nat else 1%nat) ∧
    (1 ≠ 0 →
       (∃ e, last new = Some e ∧ is_error e = true) ∧
       frames (core (started host_not_root)) = frames (core process_start) ∧
       num_frames (core (started host_not_root)) = num_frames (core process_start)).
Proof.
  apply (client_init_error_reporting host_not_root "enp8s0f0" process_start 1
           (started host_not_root)).
  - exact frame_size_4096_ok.
  - exact process_start_wf0.
  - exact init_not_root.
Defined.

Lemma client_init_returns_witness :
  ∃ r p', client_init host_fine "enp8s0f0" process_start = Ok (r, p') ∧
    (r = 0 ∨ r = 1) ∧ (r = 0 ↔ host_ready host_fine "enp8s0f0").
Proof.
  apply (client_init_returns host_fine "enp8s0f0" process_start).
  - exact frame_size_4096_ok.
  - exact process_start_wf0.
Defined.

Lemma client_init_success_witness :
  (∃ before iap after,
      snd (getifaddrs host_fine) = before ++ iap :: after ∧
      usable host_fine iap = true ∧ ifa_name iap = "enp8s0f0" ∧
      Forall (λ other, usable host_fine other = false ∨ ifa_name other ≠ "enp8s0f0")
        before ∧
      interface_index (started host_fine) =
        int_of_unsigned (if_nametoindex host_fine "enp8s0f0") ∧
      (if_nametoindex host_fine "enp8s0f0" ≤ INT_MAX →
         interface_index (started host_fine) = if_nametoindex host_fine "enp8s0f0") ∧
      (INT_MAX < if_nametoindex host_fine "enp8s0f0" →
         interface_index (started host_fine) = if_nametoindex host_fine "enp8s0f0" - 2 ^ 32 ∧
         interface_index (started host_fine) < 0) ∧
      interface_index (started host_fine) ≠ 0) ∧
  program (started host_fine) = xdp_program__open_file host_fine ∧
  buffer (started host_fine) = snd (posix_memalign host_fine) ∧
  (umem (started host_fine), fill_queue (core (started host_fine)),
   complete_queue (core (started host_fine))) = snd (xsk_umem__create host_fine) ∧
  (xsk (started host_fine), receive_queue (core (started host_fine)),
   send_queue (core (started host_fine))) = snd (xsk_socket__create host_fine) ∧
  frames (core (started host_fine)) = all_frames (FRAME_SIZE host_fine) ∧
  num_frames (core (started host_fine)) = NUM_FRAMES ∧
  free_set (core (started host_fine)) = all_frames (FRAME_SIZE host_fine).
Proof.
  apply (client_init_success host_fine "enp8s0f0" process_start (started host_fine)).
  - exact frame_size_4096_ok.
  - exact process_start_wf0.
  - exact init_fine.
Defined.

Lemma client_init_attach_fallback_witness :
  ∃ new, calls (started host_fine) = calls process_start ++ new ∧
    (count (is_attach XDP_MODE_NATIVE) new ≤ 1)%nat ∧
    (count (is_attach XDP_MODE_SKB) new ≤ 1)%nat ∧
    (count (is_attach XDP_MODE_SKB) new = 1%nat →
       count (is_attach XDP_MODE_NATIVE) new = 1%nat ∧
       xdp_program__attach host_fine XDP_MODE_NATIVE ≠ 0) ∧
    (attached_native (started host_fine) = true ↔
       count (is_attach XDP_MODE_NATIVE) new = 1%nat ∧
       xdp_program__attach host_fine XDP_MODE_NATIVE = 0) ∧
    (attached_skb (started host_fine) = true ↔
       count (is_attach XDP_MODE_SKB) new = 1%nat ∧
       xdp_program__attach host_fine XDP_MODE_SKB = 0) ∧
    ¬ (attached_native (started host_fine) = true ∧
       attached_skb (started host_fine) = true).
Proof.
  apply (client_init_attach_fallback host_fine "enp8s0f0" process_start 0
           (started host_fine)).
  - exact frame_size_4096_ok.
  - exact process_start_wf0.
  - reflexivity.
  - reflexivity.
  - exact init_fine.
Defined.

Lemma client_init_freeifaddrs_witness :
  ∃ new, calls (started host_no_index) = calls process_start ++ new ∧
    (count is_freeifaddrs new ≤ 1)%nat ∧
    (count is_freeifaddrs new = 1%nat ↔
       geteuid host_no_index = 0 ∧ fst (getifaddrs host_no_index) = 0 ∧
       ∀ iap, first_match host_no_index "enp8s0f0" (snd (getifaddrs host_no_index))
                = Some iap →
              if_nametoindex host_no_index (ifa_name iap) ≠ 0).
Proof.
  apply (client_init_freeifaddrs host_no_index "enp8s0f0" process_start 1
           (started host_no_index)).
  - exact frame_size_4096_ok.
  - exact process_start_wf0.
  - exact init_no_index.
Defined.

Lemma shutdown_after_init_witness :
  calls (client_shutdown (started host_fine)) =
    calls (started host_fine) ++
    [Detach (xdp_program__open_file host_fine)
       (int_of_unsigned (if_nametoindex host_fine "enp8s0f0"))
       (if xdp_program__attach host_fine XDP_MODE_NATIVE =? 0
        then XDP_MODE_NATIVE else XDP_MODE_SKB);
     Close (xdp_program__open_file host_fine);
     SocketDelete (fst (fst (snd (xsk_socket__create host_fine))));
     UmemDelete (fst (fst (snd (xsk_umem__create host_fine))));
     FreeBuffer (snd (posix_memalign host_fine))].
Proof.
  apply (shutdown_after_init host_fine "enp8s0f0" process_start (started host_fine)).
  - exact frame_size_4096_ok.
  - exact process_start_wf0.
  - reflexivity.
  - reflexivity.
  - by vm_compute.
  - exact init_fine.
Defined.

Lemma cleanup_after_failed_init_witness :
  (¬ interface_found host_no_program "enp8s0f0" →
   calls (cleanup (started host_no_program)) =
     calls (started host_no_program) ++ [Fflush]) ∧
  (interface_found host_no_program "enp8s0f0" →
   libxdp_get_error host_no_program (xdp_program__open_file host_no_program) ≠ 0 →
   xdp_program__open_file host_no_program ≠ NULL →
   calls (cleanup (started host_no_program)) =
     calls (started host_no_program) ++
     [Close (xdp_program__open_file host_no_program); SocketDelete (xsk process_start);
      UmemDelete (umem process_start); FreeBuffer (buffer process_start); Fflush]).
Proof.
  apply (cleanup_after_failed_init host_no_program "enp8s0f0" process_start 1
           (started host_no_program)).
  - exact frame_size_4096_ok.
  - exact process_start_wf0.
  - reflexivity.
  - reflexivity.
  - reflexivity.
  - exact init_no_program.
  - done.
Defined.

(** On that host the program that did not load is closed all the same, and
    a socket, a umem and a buffer that never existed are deleted. *)
Example cleanup_closes_error_pointer :
  calls (cleanup (started host_no_program)) =
    [Geteuid; Getifaddrs; Printf (msg_found "enp8s0f0"); IfNametoindex "enp8s0f0";
     Freeifaddrs; Printf msg_loading; OpenFile "client_xdp.o" "client_xdp";
     Printf msg_load_failed; Close (2 ^ 64 - 2); SocketDelete NULL;
     UmemDelete NULL; FreeBuffer NULL; Fflush].
Proof. vm_compute. reflexivity. Qed.




Lemma main_polls_until_signal_witness :
  ∃ p', main host_fine (replicate 3 quiet ++ signalled SIGTERM :: [quiet]) =
          Ok (Some (0, p')) ∧
    count is_update (calls p') = 3%nat ∧ count is_usleep (calls p') = 3%nat ∧
    num_frames (core p') = NUM_FRAMES ∧
    frames (core p') = all_frames (FRAME_SIZE host_fine).
Proof.
  apply (main_polls_until_signal host_fine 3 SIGTERM [quiet]).
  - exact frame_size_4096_ok.
  - exact host_fine_ready.
  - by vm_compute.
Defined.

(** What [main] does on the host where all goes well, with [SIGINT]
    delivered before the first test of [quit]. *)
Example main_fine_calls :
  main host_fine [signalled SIGINT] = Ok (Some (0, exited host_fine [signalled SIGINT])) ∧
  calls (exited host_fine [signalled SIGINT]) =
    [Printf msg_banner; Signal SIGINT; Signal SIGTERM; Signal SIGHUP;
     Geteuid; Getifaddrs; Printf (msg_found "enp8s0f0"); IfNametoindex "enp8s0f0";
     Freeifaddrs; Printf msg_loading; OpenFile "client_xdp.o" "client_xdp";
     Printf msg_loaded; Printf msg_attaching; Attach 4242 2 XDP_MODE_NATIVE;
     Printf msg_fallback; Attach 4242 2 XDP_MODE_SKB; Setrlimit;
     PosixMemalign 4096 16777216; UmemCreate 1048576 16777216;
     FindMapFd 4242 "xsks_map"; SocketCreate "enp8s0f0" 0 77; UpdateXskmap 78 5;
     Detach 4242 2 XDP_MODE_SKB; Close 4242; SocketDelete 78; UmemDelete 77;
     FreeBuffer 1048576; Fflush; Printf nl].
Proof. split; vm_compute; reflexivity. Qed.

(** An index above [INT_MAX] reaches the field, [xdp_program__attach] and
    [xdp_program__detach] as a negative number. *)
Example index_above_int_max :
  if_nametoindex host_wide_index "enp8s0f0" = 2147483648 ∧
  interface_index (started host_wide_index) = -2147483648 ∧
  calls (cleanup (started host_wide_index)) =
    [Geteuid; Getifaddrs; Printf (msg_found "enp8s0f0"); IfNametoindex "enp8s0f0";
     Freeifaddrs; Printf msg_loading; OpenFile "client_xdp.o" "client_xdp";
     Printf msg_loaded; Printf msg_attaching; Attach 4242 (-2147483648) XDP_MODE_NATIVE;
     Printf msg_fallback; Attach 4242 (-2147483648) XDP_MODE_SKB; Setrlimit;
     PosixMemalign 4096 16777216; UmemCreate 1048576 16777216;
     FindMapFd 4242 "xsks_map"; SocketCreate "enp8s0f0" 0 77; UpdateXskmap 78 5;
     Detach 4242 (-2147483648) XDP_MODE_SKB; Close 4242; SocketDelete 78; UmemDelete 77;
     FreeBuffer 1048576; Fflush].
Proof. split_and!; vm_compute; reflexivity. Qed.
